(** * Room synchronisation server (backend/index.js)

    A shallow embedding of the socket.io server of the real-time code
    editor: the [rooms] directory, the per-socket state kept in
    [socket.data], the six event handlers, and the 100 ms debounce timer
    of [codeChange].

    Modelling conventions.
    - Strings are sequences of 8-bit code units (the Latin-1 range of a
      JavaScript string).
    - A payload is a JSON value: a scalar or a plain object.  Numbers are
      integer valued; arrays are not modelled.
    - [rooms] is a [Map] from room id to a [Set] of names.  A [Set] is a
      duplicate-free list in insertion order, which is the order
      [Array.from] reads it in.
    - The transport keeps, for every socket, the rooms it is in: the
      room named after the socket's own id, which socket.io puts it in
      when it connects, and the rooms it was put in with [socket.join].
      [io.to(r)] reaches the sockets that are in [r], and [socket.to(r)]
      the same sockets but the sender.
    - Time is in milliseconds.  [setTimeout(f, 100)] at time [t] arms a
      timer that may run from [t + 100] on; the event loop looking at a
      socket's timer is the input [TimerDue]. *)

From stdpp Require Import gmap strings list fin_maps.
From Stdlib Require Import ZArith Ascii String.

#[local] Set Warnings "-clear-no-such-hyp".

Open Scope string_scope.
Open Scope list_scope.
Open Scope Z_scope.

(** ** JavaScript values *)

#[warnings="-register-all"]
Inductive jsval :=
| JUndefined
| JNull
| JBool (b : bool)
| JNum (n : Z)
| JStr (s : string)
| JObj (fields : list (string * jsval)).

(** [!!v] *)
Definition truthy (v : jsval) : bool :=
  match v with
  | JUndefined | JNull => false
  | JBool b => b
  | JNum n => negb (n =? 0)
  | JStr s => negb (String.eqb s "")
  | JObj _ => true
  end.

Definition typeof (v : jsval) : string :=
  match v with
  | JUndefined => "undefined"
  | JNull => "object"
  | JBool _ => "boolean"
  | JNum _ => "number"
  | JStr _ => "string"
  | JObj _ => "object"
  end.

Fixpoint assoc (k : string) (fields : list (string * jsval)) : jsval :=
  match fields with
  | [] => JUndefined
  | (k', v) :: rest => if String.eqb k k' then v else assoc k rest
  end.

(** [v.k] for the keys the handlers read ([roomId], [userName], [code],
    [language]): a primitive has none of them.  On [null] and [undefined]
    the access throws; every caller below excludes the two first. *)
Definition get_prop (v : jsval) (k : string) : jsval :=
  match v with
  | JObj fields => assoc k fields
  | _ => JUndefined
  end.

(** Truthiness of a [socket.data] field that is [null] or a string. *)
Definition truthy_field (o : option string) : bool :=
  match o with
  | Some s => negb (String.eqb s "")
  | None => false
  end.

Definition field_val (o : option string) : jsval :=
  match o with
  | Some s => JStr s
  | None => JNull
  end.

(** ** [String.prototype.trim] *)

Definition isWhiteSpace (a : ascii) : bool :=
  let n := N_of_ascii a in
  ((9 <=? n) && (n <=? 13) || (n =? 32) || (n =? 160))%N.

Fixpoint trimStart (s : string) : string :=
  match s with
  | String a rest => if isWhiteSpace a then trimStart rest else s
  | EmptyString => EmptyString
  end.

Fixpoint trimEnd (s : string) : string :=
  match s with
  | String a rest =>
      match trimEnd rest with
      | EmptyString => if isWhiteSpace a then EmptyString else String a EmptyString
      | rest' => String a rest'
      end
  | EmptyString => EmptyString
  end.

Definition trim (s : string) : string := trimEnd (trimStart s).

(** ** [Set] of names *)

Definition set_add (x : string) (l : list string) : list string :=
  if decide (x ∈ l) then l else l ++ [x].

Definition set_delete (o : option string) (l : list string) : list string :=
  match o with
  | Some x => filter (λ y, y ≠ x) l
  | None => l
  end.

(** ** Server state *)

Abbreviation connid := string (only parsing).

(** The callback given to [setTimeout] in [codeChange]: it closes over
    the handler's [roomId]; [fires_at] is the arming time plus the delay. *)
Record timeout := Timer { fires_at : Z; t_roomId : string }.

Record socket := Socket {
  connected : bool;
  sock_rooms : gset string;
  currentRoom : option string;
  userName : option string;
  _codeDebounceTimer : option timeout;
  _pendingCode : option string;
}.

Record server := Server {
  rooms : gmap string (list string);
  sockets : gmap string socket;
}.

Definition init : server := Server ∅ ∅.

(** [io.on("connection")]: the per-socket state, for a socket the
    transport has put in the room of its own id. *)
Definition new_socket (c : connid) : socket :=
  Socket true {[c]} None None None None.

(** ** Events sent by the server *)

Inductive event :=
| UserJoined (users : list string)
| CodeUpdate (newCode : jsval)
| UserTyping (user : jsval)
| LanguageUpdate (newLanguage : string)
| Error (message : string).

(** What a handler does to the outside: it emits an event to a set of
    sockets, or lets an exception escape. *)
Inductive effect :=
| Emit (targets : gset string) (ev : event)
| Uncaught (err : string).

Definition targets_of (e : effect) : gset string :=
  match e with
  | Emit tg _ => tg
  | Uncaught _ => ∅
  end.

(** The sockets [io.to(r)] reaches. *)
Definition subscribers (s : server) (r : string) : gset string :=
  dom (filter (λ p : string * socket, r ∈ sock_rooms p.2) (sockets s)).

(** [io.to(roomId)] for an unchecked [roomId]: only a string names a room
    a socket can be in. *)
Definition io_to (s : server) (roomId : jsval) : gset string :=
  match roomId with
  | JStr r => subscribers s r
  | _ => ∅
  end.

(** [socket.to(roomId)] *)
Definition socket_to (s : server) (c : connid) (roomId : jsval) : gset string :=
  io_to s roomId ∖ {[c]}.

Definition set_socket (s : server) (c : connid) (k : socket) : server :=
  Server (rooms s) (<[c := k]> (sockets s)).

Definition set_rooms (s : server) (m : gmap string (list string)) : server :=
  Server m (sockets s).

Definition participants (s : server) (r : string) : list string :=
  default [] (rooms s !! r).

(** ** Handlers *)

Definition safeLeaveRoom (s : server) (roomId userName : option string)
  : server * list effect :=
  match roomId with
  | Some r =>
      if String.eqb r "" then (s, [])
      else
        match rooms s !! r with
        | None => (s, [])
        | Some set =>
            let set' := set_delete userName set in
            let m := if Nat.eqb (List.length set') 0 then delete r (rooms s)
                     else <[r := set']> (rooms s) in
            let s' := set_rooms s m in
            (s', [Emit (subscribers s' r) (UserJoined (participants s' r))])
        end
  | None => (s, [])
  end.

(** [socket.join(r)] and [socket.leave(r)] *)
Definition socket_join (k : socket) (r : string) : socket :=
  Socket (connected k) ({[r]} ∪ sock_rooms k) (currentRoom k) (userName k)
         (_codeDebounceTimer k) (_pendingCode k).

Definition socket_leave (k : socket) (r : option string) : socket :=
  match r with
  | Some r =>
      Socket (connected k) (sock_rooms k ∖ {[r]}) (currentRoom k) (userName k)
             (_codeDebounceTimer k) (_pendingCode k)
  | None => k
  end.

Definition set_identity (k : socket) (room name : option string) : socket :=
  Socket (connected k) (sock_rooms k) room name
         (_codeDebounceTimer k) (_pendingCode k).

Definition set_debounce (k : socket) (tm : option timeout) (code : option string)
  : socket :=
  Socket (connected k) (sock_rooms k) (currentRoom k) (userName k) tm code.

(** [if (guard) { safeLeaveRoom(currentRoom, userName);
    socket.leave(currentRoom); }], as [join] and [leaveRoom] have it. *)
Definition leave_current (s : server) (k : socket) (guard : bool)
  : server * socket * list effect :=
  if guard then
    let '(s1, out) := safeLeaveRoom s (currentRoom k) (userName k) in
    (s1, socket_leave k (currentRoom k), out)
  else (s, k, []).

(** The two guards of [join]; [None] when the payload passes. *)
Definition join_error (payload : jsval) : option string :=
  if negb (truthy payload) then Some "Invalid or missing roomId in join"
  else
    match get_prop payload "roomId" with
    | JStr r =>
        if negb (truthy (JStr (trim r))) then Some "Invalid or missing roomId in join"
        else
          match get_prop payload "userName" with
          | JStr u =>
              if negb (truthy (JStr (trim u)))
              then Some "Invalid or missing userName in join"
              else None
          | _ => Some "Invalid or missing userName in join"
          end
    | _ => Some "Invalid or missing roomId in join"
    end.

Definition on_join (s : server) (c : connid) (k : socket) (payload : jsval)
  : server * list effect :=
  match join_error payload with
  | Some msg => (s, [Emit {[c]} (Error msg)])
  | None =>
      match get_prop payload "roomId", get_prop payload "userName" with
      | JStr roomId, JStr userName' =>
          (* If already in a room, leave it first *)
          let '(s1, k1, out1) := leave_current s k (truthy_field (currentRoom k)) in
          (* join new room *)
          let k2 := set_identity (socket_join k1 roomId) (Some roomId) (Some userName') in
          let s2 := set_socket s1 c k2 in
          let set := default [] (rooms s2 !! roomId) in
          let s3 := set_rooms s2 (<[roomId := set_add userName' set]> (rooms s2)) in
          (s3, out1 ++ [Emit (subscribers s3 roomId) (UserJoined (participants s3 roomId))])
      | _, _ => (s, [])
      end
  end.

(** The parameter pattern [{ roomId, ... } = {}]: [undefined] takes the
    default, [null] cannot be destructured. *)
Definition destructure (payload : jsval) : option jsval :=
  match payload with
  | JUndefined => Some (JObj [])
  | JNull => None
  | v => Some v
  end.

Definition TypeError : string := "TypeError: Cannot destructure property".

Definition debounce_delay : Z := 100.

Definition on_codeChange (s : server) (now : Z) (c : connid) (k : socket)
  (payload : jsval) : server * list effect :=
  match destructure payload with
  | None => (s, [Uncaught TypeError])
  | Some p =>
      match get_prop p "roomId", get_prop p "code" with
      | JStr roomId, JStr code =>
          if String.eqb roomId "" then (s, [])
          (* ensure socket is in the claimed room *)
          else if bool_decide (currentRoom k = Some roomId) then
            let tm := Timer (now + debounce_delay) roomId in
            (set_socket s c (set_debounce k (Some tm) (Some code)), [])
          else (s, [])
      | _, _ => (s, [])
      end
  end.

(** The timer of socket [c] when the event loop reaches it at [now]. *)
Definition on_timeout (s : server) (now : Z) (c : connid) (k : socket)
  : server * list effect :=
  match _codeDebounceTimer k with
  | Some tm =>
      if fires_at tm <=? now then
        (set_socket s c (set_debounce k None None),
         [Emit (socket_to s c (JStr (t_roomId tm)))
               (CodeUpdate (field_val (_pendingCode k)))])
      else (s, [])
  | None => (s, [])
  end.

Definition on_leaveRoom (s : server) (c : connid) (k : socket)
  : server * list effect :=
  let '(s1, k1, out) :=
    leave_current s k (truthy_field (currentRoom k) && truthy_field (userName k)) in
  (set_socket s1 c (set_identity k1 None None), out).

Definition on_typing (s : server) (c : connid) (payload : jsval)
  : server * list effect :=
  match destructure payload with
  | None => (s, [Uncaught TypeError])
  | Some p =>
      (s, [Emit (socket_to s c (get_prop p "roomId"))
                (UserTyping (get_prop p "userName"))])
  end.

Definition on_languageChange (s : server) (payload : jsval)
  : server * list effect :=
  match destructure payload with
  | None => (s, [Uncaught TypeError])
  | Some p =>
      match get_prop p "roomId", get_prop p "language" with
      | JStr roomId, JStr language =>
          (s, [Emit (subscribers s roomId) (LanguageUpdate language)])
      | _, _ => (s, [])
      end
  end.

(** The transport takes the socket out of its rooms and marks it closed
    before it runs the [disconnect] listener. *)
Definition close_socket (k : socket) : socket :=
  Socket false ∅ (currentRoom k) (userName k)
         (_codeDebounceTimer k) (_pendingCode k).

Definition on_disconnect (s : server) (c : connid) (k : socket)
  : server * list effect :=
  let k0 := close_socket k in
  let s0 := set_socket s c k0 in
  let '(s1, out) :=
    if truthy_field (currentRoom k0) && truthy_field (userName k0)
    then safeLeaveRoom s0 (currentRoom k0) (userName k0)
    else (s0, []) in
  let k1 := match _codeDebounceTimer k0 with
            | Some _ => set_debounce k0 None None
            | None => k0
            end in
  (set_socket s1 c k1, out).

(** ** The event loop *)

Inductive incoming :=
| Connect
| Join (payload : jsval)
| CodeChange (payload : jsval)
| LeaveRoom
| Typing (payload : jsval)
| LanguageChange (payload : jsval)
| Disconnect
| TimerDue.

Record arrival := Arrival { at_ms : Z; from : connid; msg : incoming }.

(** One turn of the event loop.  A message of a socket that is not open
    is not delivered to any listener; a timer runs whether or not its
    socket is still open. *)
Definition step (s : server) (a : arrival) : server * list effect :=
  let c := from a in
  match sockets s !! c with
  | None =>
      match msg a with
      | Connect => (set_socket s c (new_socket c), [])
      | _ => (s, [])
      end
  | Some k =>
      match msg a with
      | TimerDue => on_timeout s (at_ms a) c k
      | m =>
          if connected k then
            match m with
            | Connect => (s, [])
            | Join payload => on_join s c k payload
            | CodeChange payload => on_codeChange s (at_ms a) c k payload
            | LeaveRoom => on_leaveRoom s c k
            | Typing payload => on_typing s c payload
            | LanguageChange payload => on_languageChange s payload
            | Disconnect => on_disconnect s c k
            | TimerDue => (s, [])
            end
          else (s, [])
      end
  end.

(** A run, with every effect labelled by the socket whose message or
    timer produced it. *)
Fixpoint run (s : server) (tr : list arrival) : server * list (connid * effect) :=
  match tr with
  | [] => (s, [])
  | a :: tr' =>
      let '(s1, out) := step s a in
      let '(s2, log) := run s1 tr' in
      (s2, map (pair (from a)) out ++ log)
  end.

Inductive reachable : server → Prop :=
| reachable_init : reachable init
| reachable_step s a : reachable s → reachable (step s a).1.

Definition caused_by (c : connid) (log : list (connid * effect)) : list effect :=
  map snd (filter (λ p : connid * effect, p.1 = c) log).

(** * Properties *)

(** The directory stores no empty set, and no name twice. *)
Definition rooms_ok (s : server) : Prop :=
  ∀ (r : string) (l : list string), rooms s !! r = Some l → l ≠ [] ∧ NoDup l.

(** The identity fields a socket can be in: none set, or a room id and a
    name that both passed the guards of [join]; an open socket sits in
    the transport's room of its [currentRoom], and a room of the
    transport a socket sits in is that one or the room of its own id;
    only an open socket has a timer armed. *)
Record sock_ok (c : connid) (k : socket) : Prop := SockOk {
  ok_both : currentRoom k = None ↔ userName k = None;
  ok_room : ∀ r, currentRoom k = Some r → trim r ≠ "";
  ok_name : ∀ n, userName k = Some n → trim n ≠ "";
  ok_joined : connected k = true → ∀ r, currentRoom k = Some r → r ∈ sock_rooms k;
  ok_rooms : ∀ r, r ∈ sock_rooms k →
             connected k = true ∧ (currentRoom k = Some r ∨ r = c);
  ok_timer : connected k = false → _codeDebounceTimer k = None;
  ok_pending : is_Some (_codeDebounceTimer k) → is_Some (_pendingCode k);
}.

Arguments ok_both {c} k _.
Arguments ok_room {c} k _ r _.
Arguments ok_name {c} k _ n _.
Arguments ok_joined {c} k _ _ r _.
Arguments ok_rooms {c} k _ r _.
Arguments ok_timer {c} k _ _.
Arguments ok_pending {c} k _ _.

(** A roster entry is backed by an open socket that is in that room under
    that name. *)
Definition backed (s : server) : Prop :=
  ∀ r n, n ∈ participants s r →
    ∃ c k, sockets s !! c = Some k ∧ connected k = true ∧
           currentRoom k = Some r ∧ userName k = Some n.

Record inv (s : server) : Prop := Inv {
  inv_sockets : ∀ c k, sockets s !! c = Some k → sock_ok c k;
  inv_rooms : rooms_ok s;
  inv_backed : backed s;
}.

(** The payloads the client sends. *)
Definition join_payload (r u : string) : jsval :=
  JObj [("roomId", JStr r); ("userName", JStr u)].

Definition code_payload (r code : string) : jsval :=
  JObj [("roomId", JStr r); ("code", JStr code)].

(** What leaving the current room emits: the roster without the name,
    to the transport's room as it is before [socket.leave]; nothing
    when the directory does not hold the room. *)
Definition leave_effects (s : server) (room name : option string) (tg : gset string)
  : list effect :=
  match room with
  | Some A =>
      if decide (A ∈ dom (rooms s))
      then [Emit tg (UserJoined (set_delete name (participants s A)))]
      else []
  | None => []
  end.

(** A message with which its sender leaves room [r]: [leaveRoom],
    [disconnect], or a [join] that passes the guards and names another
    room. *)
Definition departs (m : incoming) (r : string) : Prop :=
  match m with
  | LeaveRoom | Disconnect => True
  | Join p => join_error p = None ∧ get_prop p "roomId" ≠ JStr r
  | _ => False
  end.





(** The state of a socket that is in no room of the editor: of the
    rooms of the transport it is in the room of its own id, and in none
    once it is closed. *)
Definition unjoined (s : server) (c : connid) : Prop :=
  ∀ k, sockets s !! c = Some k →
    currentRoom k = None ∧ userName k = None ∧
    _codeDebounceTimer k = None ∧ _pendingCode k = None ∧
    sock_rooms k = if connected k then {[c]} else ∅.

(** The room a message names: the [roomId] of a [join], a [typing] or a
    [languageChange].  A [codeChange] is not among them: the server
    drops it unless it names the room its sender is in. *)
Definition addresses (m : incoming) (r : string) : Prop :=
  match m with
  | Join p | Typing p | LanguageChange p => get_prop p "roomId" = JStr r
  | _ => False
  end.

(** No message of [tr] names [c] as a room. *)
Definition unaddressed (c : connid) (tr : list arrival) : Prop :=
  Forall (λ a, ¬ addresses (msg a) c) tr.

(** A room some socket has for [currentRoom], or some armed timer has
    closed over. *)
Definition room_in_use (s : server) (r : string) : Prop :=
  ∃ d k, sockets s !! d = Some k ∧
         (currentRoom k = Some r ∨
          ∃ tm, _codeDebounceTimer k = Some tm ∧ t_roomId tm = r).

(** Every [join] that [c] sends in [tr] is one the guards reject. *)
Definition never_joins (c : connid) (tr : list arrival) : Prop :=
  Forall (λ a, from a = c → ∀ p, msg a = Join p → is_Some (join_error p)) tr.

(** An effect that is no [userJoined] and no [codeUpdate]. *)
Definition no_roster_no_code (e : effect) : Prop :=
  match e with
  | Emit _ (UserJoined _) | Emit _ (CodeUpdate _) => False
  | _ => True
  end.

(** A payload lacks a string under [key]. *)
Definition lacks_string (p : jsval) (key : string) : Prop :=
  ∀ x, get_prop p key ≠ JStr x.

(** * The client (frontend/src/App.jsx) *)

(** ** [generateColor]

    A JavaScript number is a double; the integers of this loop are
    modelled in [Z], which is exact as long as they stay below [2^53]
    (a bound proved below for names of up to [2^21] characters).  [<<]
    works on the 32-bit integer its operand wraps to. *)

Definition colors : list string :=
  ["linear-gradient(135deg, #667eea 0%, #764ba2 100%)";
   "linear-gradient(135deg, #f093fb 0%, #f5576c 100%)";
   "linear-gradient(135deg, #4facfe 0%, #00f2fe 100%)";
   "linear-gradient(135deg, #43e97b 0%, #38f9d7 100%)";
   "linear-gradient(135deg, #fa709a 0%, #fee140 100%)";
   "linear-gradient(135deg, #30cfd0 0%, #330867 100%)";
   "linear-gradient(135deg, #a8edea 0%, #fed6e3 100%)";
   "linear-gradient(135deg, #ff9a9e 0%, #fecfef 100%)"].

(** [ToInt32] *)
Definition toInt32 (z : Z) : Z := (z + 2 ^ 31) mod 2 ^ 32 - 2 ^ 31.

(** [x << n] *)
Definition shl (x n : Z) : Z := toInt32 (Z.shiftl (toInt32 x) n).

Definition charCode (a : ascii) : Z := Z.of_N (N_of_ascii a).

(** The loop of [generateColor], from index [i] on: [name] is what is
    left of the string. *)
Fixpoint hash_loop (hash : Z) (name : string) : Z :=
  match name with
  | String a rest => hash_loop (charCode a + (shl hash 5 - hash)) rest
  | EmptyString => hash
  end.

Definition generateColor (name : string) : option string :=
  let hash := hash_loop 0 name in
  colors !! Z.to_nat (Z.rem (Z.abs hash) (Z.of_nat (List.length colors))).

(** ** [getInitials] *)

(** [s.split(sep)] for a separator of one character. *)
Fixpoint split_on (sep : ascii) (s : string) : list string :=
  match s with
  | String a rest =>
      if Ascii.eqb a sep then EmptyString :: split_on sep rest
      else
        match split_on sep rest with
        | part :: parts => String a part :: parts
        | [] => [String a EmptyString]
        end
  | EmptyString => [EmptyString]
  end.

(** How many times a character occurs in a string. *)
Fixpoint count_char (a : ascii) (s : string) : nat :=
  match s with
  | String b rest => (if Ascii.eqb b a then 1 else 0) + count_char a rest
  | EmptyString => 0
  end.

(** The polynomial hash in base 31 of the code units, as Java's
    [String.hashCode] without its wrap-around. *)
Fixpoint poly31 (h : Z) (name : string) : Z :=
  match name with
  | String a rest => poly31 (31 * h + charCode a) rest
  | EmptyString => h
  end.

(** [s[0]]: a string of one character, or [undefined]. *)
Definition first_char (s : string) : jsval :=
  match s with
  | String a _ => JStr (String a EmptyString)
  | EmptyString => JUndefined
  end.

(** [a + b] for two values that are a string or [undefined]: a string
    operand makes it a concatenation; [undefined + undefined] is [NaN],
    which is no string. *)
Definition js_plus (a b : jsval) : option string :=
  match a, b with
  | JStr x, JStr y => Some (x ++ y)%string
  | JStr x, JUndefined => Some (x ++ "undefined")%string
  | JUndefined, JStr y => Some ("undefined" ++ y)%string
  | _, _ => None
  end.

(** [s.substring(0, n)] *)
Fixpoint substring0 (n : nat) (s : string) : string :=
  match n, s with
  | S n', String a rest => String a (substring0 n' rest)
  | _, _ => EmptyString
  end.

Section Initials.
(** [String.prototype.toUpperCase] is not modelled: what follows holds
    for every function in its place. *)
Variable toUpperCase : string → string.

(** [None]: the call throws, [toUpperCase] being called on a number. *)
Definition getInitials (name : string) : option string :=
  let parts := split_on " " (trim name) in
  if (2 <=? List.length parts)%nat then
    match parts with
    | p0 :: p1 :: _ => toUpperCase <$> js_plus (first_char p0) (first_char p1)
    | _ => None
    end
  else Some (toUpperCase (substring0 2 name)).
End Initials.

(** ** The statistics of the toolbar *)

(** [{ lines: code.split('\n').length, chars: code.length }] *)
Definition stats (code : string) : nat * nat :=
  (List.length (split_on "010" code), String.length code).

(** ** The name of the downloaded file *)

Definition extensions : list (string * string) :=
  [("javascript", "js"); ("python", "py"); ("java", "java"); ("cpp", "cpp");
   ("typescript", "ts"); ("html", "html"); ("css", "css")].

(** The languages of the selector of the editor screen. *)
Definition selector_options : list string :=
  ["javascript"; "typescript"; "python"; "java"; "cpp"; "html"; "css"].

(** The keys every object inherits from [Object.prototype]: under them
    [extensions[language]] is a function or an object, not a string. *)
Definition inherited_keys : list string :=
  ["constructor"; "__proto__"; "hasOwnProperty"; "isPrototypeOf";
   "propertyIsEnumerable"; "toLocaleString"; "toString"; "valueOf";
   "__defineGetter__"; "__defineSetter__"; "__lookupGetter__";
   "__lookupSetter__"].

Fixpoint own_property (k : string) (table : list (string * string)) : option string :=
  match table with
  | [] => None
  | (k', v) :: rest => if String.eqb k k' then Some v else own_property k rest
  end.

(** [`code.${extensions[language] || 'txt'}`]; [None] under an inherited
    key, where the name is made of the text of a function. *)
Definition download_name (language : string) : option string :=
  match own_property language extensions with
  | Some ext => Some ("code." ++ (if String.eqb ext "" then "txt" else ext))%string
  | None =>
      if bool_decide (language ∈ inherited_keys) then None
      else Some "code.txt"
  end.

(** ** The state of the [App] component and its handlers *)

Definition language_payload (r language : string) : jsval :=
  JObj [("roomId", JStr r); ("language", JStr language)].

(** What a handler of the client does to the outside: [socket.emit] and
    the toasts. *)
Inductive ui :=
| Send (m : incoming)
| ToastSuccess (text : string)
| ToastError (text : string).

Module Client.

(** The [useState] cells that the handlers below read or write.  [code]
    and [typing] hold whatever the server sent.  [typing_clears] are the
    deadlines of the pending [setTimeout(() => setTyping(""), 2000)]. *)
Record state := State {
  joined : bool;
  roomId : string;
  userName : string;
  language : string;
  code : jsval;
  users : list string;
  typing : jsval;
  typing_clears : list Z;
}.

Definition initial : state :=
  State false "" "" "javascript" (JStr "// Start coding together!") [] (JStr "") [].

Definition joinRoom (st : state) : state * list ui :=
  if negb (String.eqb (roomId st) "") && negb (String.eqb (userName st) "") then
    (State true (roomId st) (userName st) (language st) (code st) (users st)
           (typing st) (typing_clears st),
     [Send (Join (join_payload (roomId st) (userName st)));
      ToastSuccess ("Welcome to room " ++ roomId st ++ "!")%string])
  else (st, [ToastError "Please enter both Room ID and Name"]).

Definition leaveRoom (st : state) : state * list ui :=
  (State false "" "" "javascript" (JStr "// Start coding together!") (users st)
         (typing st) (typing_clears st),
   [Send LeaveRoom; ToastSuccess "Left the room"]).


Definition handleLanguageChange (st : state) (newLanguage : string)
  : state * list ui :=
  (State (joined st) (roomId st) (userName st) newLanguage (code st)
         (users st) (typing st) (typing_clears st),
   [Send (LanguageChange (language_payload (roomId st) newLanguage))]).

(** The four [socket.on] listeners; no listener is registered for
    [error]. *)
Definition receive (st : state) (now : Z) (ev : event) : state * list ui :=
  match ev with
  | UserJoined us =>
      (State (joined st) (roomId st) (userName st) (language st) (code st) us
             (typing st) (typing_clears st), [])
  | CodeUpdate newCode =>
      (State (joined st) (roomId st) (userName st) (language st) newCode
             (users st) (typing st) (typing_clears st), [])
  | UserTyping user =>
      (State (joined st) (roomId st) (userName st) (language st) (code st)
             (users st) user (typing_clears st ++ [now + 2000]), [])
  | LanguageUpdate newLanguage =>
      (State (joined st) (roomId st) (userName st) newLanguage (code st)
             (users st) (typing st) (typing_clears st),
       [ToastSuccess ("Language changed to " ++ newLanguage)%string])
  | Error _ => (st, [])
  end.

(** The event loop of the browser at [now]: every timer that is due
    runs [setTyping("")]. *)
Definition timers (st : state) (now : Z) : state :=
  if bool_decide (Exists (λ d, d ≤ now) (typing_clears st)) then
    State (joined st) (roomId st) (userName st) (language st) (code st)
          (users st) (JStr "") (filter (λ d, now < d) (typing_clears st))
  else st.

End Client.

(** The messages among what a handler of the client did. *)
Fixpoint sent (out : list ui) : list incoming :=
  match out with
  | Send m :: rest => m :: sent rest
  | _ :: rest => sent rest
  | [] => []
  end.

(** The server takes in, at [t], the messages socket [c] sent. *)
Definition deliver (s : server) (t : Z) (c : connid) (ms : list incoming)
  : server * list (connid * effect) :=
  run s (map (Arrival t c) ms).

(** * Basic facts *)

Section Basics.
Implicit Types (s : server) (k : socket) (c : connid) (r n : string).
Implicit Types (l : list string).

(** The handlers' test [typeof v !== "string"] is written below as a
    match on [JStr]. *)
Lemma typeof_string (v : jsval) : typeof v = "string" ↔ ∃ x, v = JStr x.
Proof.
  split.
  - destruct v; try discriminate. eauto.
  - by intros [x ->].
Qed.

Lemma eqb_empty_false r : r ≠ "" → String.eqb r "" = false.
Proof. intros H. by apply String.eqb_neq. Qed.

Lemma trim_nonempty r : trim r ≠ "" → r ≠ "".
Proof. intros H ->. by apply H. Qed.

Lemma truthy_field_Some r : truthy_field (Some r) = true ↔ r ≠ "".
Proof.
  simpl. destruct (String.eqb_spec r ""); simpl; split; intros; congruence.
Qed.

Lemma elem_of_set_add x y l : y ∈ set_add x l ↔ y = x ∨ y ∈ l.
Proof.
  unfold set_add. case_decide.
  - split; [by right | intros [-> | ?]; done].
  - rewrite elem_of_app, list_elem_of_singleton. tauto.
Qed.

Lemma NoDup_set_add x l : NoDup l → NoDup (set_add x l).
Proof.
  intros Hl. unfold set_add. case_decide; [done |].
  apply NoDup_app. split_and!; [done | | apply NoDup_singleton].
  intros y Hy Hx. apply list_elem_of_singleton in Hx. by subst.
Qed.

Lemma set_add_nonempty x l : set_add x l ≠ [].
Proof.
  intros H. assert (Hx : x ∈ set_add x l) by (apply elem_of_set_add; by left).
  rewrite H in Hx. by apply not_elem_of_nil in Hx.
Qed.

Lemma elem_of_set_delete o y l :
  y ∈ set_delete o l ↔ y ∈ l ∧ o ≠ Some y.
Proof.
  destruct o as [x |]; simpl.
  - rewrite list_elem_of_filter. split; intros [? ?]; split; congruence.
  - split; [intros ?; split; [done | congruence] | by intros [? _]].
Qed.

Lemma NoDup_set_delete o l : NoDup l → NoDup (set_delete o l).
Proof. destruct o; simpl; [apply NoDup_filter | done]. Qed.

Lemma elem_of_subscribers s c r :
  c ∈ subscribers s r ↔ ∃ k, sockets s !! c = Some k ∧ r ∈ sock_rooms k.
Proof.
  unfold subscribers. rewrite elem_of_dom. split.
  - intros [k Hk]. apply map_lookup_filter_Some in Hk as [? ?]. eauto.
  - intros (k & ? & ?). exists k. by apply map_lookup_filter_Some.
Qed.

Lemma subscribers_set_rooms s m r :
  subscribers (set_rooms s m) r = subscribers s r.
Proof. done. Qed.

(** ** [safeLeaveRoom] *)

Lemma safeLeaveRoom_sockets s ro no :
  sockets (safeLeaveRoom s ro no).1 = sockets s.
Proof.
  unfold safeLeaveRoom. destruct ro as [r |]; [| done].
  destruct (String.eqb r ""); [done |]. by destruct (rooms s !! r).
Qed.

Lemma safeLeaveRoom_participants s ro no r :
  participants (safeLeaveRoom s ro no).1 r =
  if decide (ro = Some r ∧ r ≠ "") then set_delete no (participants s r)
  else participants s r.
Proof.
  unfold safeLeaveRoom, participants.
  destruct ro as [r0 |]; [| by rewrite decide_False by naive_solver].
  destruct (String.eqb_spec r0 "") as [-> | Hne].
  { rewrite decide_False; [done | naive_solver]. }
  destruct (rooms s !! r0) as [set |] eqn:Hset.
  - simpl. case_decide as Hd.
    + destruct Hd as [[= ->] _]. rewrite Hset. simpl.
      destruct (Nat.eqb_spec (List.length (set_delete no set)) 0) as [Hz | Hz].
      * rewrite lookup_delete_eq. by apply nil_length_inv in Hz as ->.
      * by rewrite lookup_insert_eq.
    + assert (r0 ≠ r) by naive_solver.
      destruct (Nat.eqb (List.length (set_delete no set)) 0).
      * by rewrite lookup_delete_ne.
      * by rewrite lookup_insert_ne.
  - simpl. case_decide as Hd; [| done].
    destruct Hd as [[= ->] _]. rewrite Hset. simpl. by destruct no.
Qed.

(** What [safeLeaveRoom] emits: nothing when the room is not in the
    directory, else the roster it leaves behind to whoever is in the
    transport's room. *)
Lemma safeLeaveRoom_effects s ro no :
  (safeLeaveRoom s ro no).2 =
  match ro with
  | Some r =>
      if decide (r ≠ "" ∧ is_Some (rooms s !! r))
      then [Emit (subscribers s r)
              (UserJoined (participants (safeLeaveRoom s ro no).1 r))]
      else []
  | None => []
  end.
Proof.
  unfold safeLeaveRoom. destruct ro as [r |]; [| done].
  destruct (String.eqb_spec r "") as [-> | Hne].
  { rewrite decide_False; [done | naive_solver]. }
  destruct (rooms s !! r) as [set |] eqn:Hset.
  - rewrite decide_True by eauto. done.
  - rewrite decide_False; [done |]. intros [_ [? ?]]. congruence.
Qed.

Lemma safeLeaveRoom_rooms_ok s ro no :
  rooms_ok s → rooms_ok (safeLeaveRoom s ro no).1.
Proof.
  intros Hok. unfold safeLeaveRoom. destruct ro as [r0 |]; [| done].
  destruct (String.eqb r0 ""); [done |].
  destruct (rooms s !! r0) as [set |] eqn:Hset; [| done].
  intros r l. simpl.
  destruct (Nat.eqb_spec (List.length (set_delete no set)) 0) as [Hz | Hz].
  - intros Hl. apply lookup_delete_Some in Hl as [_ Hl]. eauto.
  - intros Hl. apply lookup_insert_Some in Hl as [[_ <-] | [_ Hl]]; [| eauto].
    split.
    + intros Hnil. by rewrite Hnil in Hz.
    + apply NoDup_set_delete. by apply (Hok r0).
Qed.

Lemma rooms_ok_participants s r :
  rooms_ok s → (is_Some (rooms s !! r) ↔ participants s r ≠ []).
Proof.
  intros Hok. unfold participants. split.
  - intros [l Hl]. rewrite Hl. simpl. by apply (Hok r).
  - destruct (rooms s !! r); [eauto | done].
Qed.
End Basics.

Section Invariants.
Implicit Types (s : server) (k : socket) (c : connid) (r n : string).

Lemma sock_ok_new c : sock_ok c (new_socket c).
Proof.
  split; simpl; try done.
  intros r ->%elem_of_singleton. by split; [| right].
Qed.

Lemma sock_ok_truthy {c} k :
  sock_ok c k →
  truthy_field (currentRoom k) = bool_decide (is_Some (currentRoom k)) ∧
  truthy_field (userName k) = bool_decide (is_Some (currentRoom k)).
Proof.
  intros Hk. destruct (currentRoom k) as [r |] eqn:Hr.
  - destruct (userName k) as [n |] eqn:Hn.
    + rewrite bool_decide_eq_true_2 by eauto.
      split; apply truthy_field_Some, trim_nonempty.
      * by apply (ok_room k Hk). * by apply (ok_name k Hk).
    + exfalso. destruct (ok_both k Hk) as [_ H2].
      rewrite Hr in H2. by specialize (H2 Hn).
  - destruct (ok_both k Hk) as [H1 _]. rewrite Hr in H1. rewrite H1 by done.
    rewrite bool_decide_eq_false_2; [done |]. by intros [? ?].
Qed.

Lemma sock_ok_set_debounce {c} k tm code :
  sock_ok c k → (is_Some tm → connected k = true ∧ is_Some code) →
  sock_ok c (set_debounce k tm code).
Proof.
  intros Hk Htm. split; simpl; try apply Hk.
  - intros Hc. destruct tm; [| done]. destruct Htm as [? _]; [eauto | congruence].
  - intros H. by apply Htm.
Qed.

Lemma inv_init : inv init.
Proof.
  split.
  - intros c k H. unfold init in H. simpl in H. by rewrite lookup_empty in H.
  - intros r l H. unfold init in H. simpl in H. by rewrite lookup_empty in H.
  - intros r n H. unfold participants, init in H. simpl in H.
    rewrite lookup_empty in H. by apply not_elem_of_nil in H.
Qed.

(** A socket whose identity and openness stay as they are keeps every
    roster entry backed. *)
Lemma inv_set_socket_same s c k k' :
  inv s → sockets s !! c = Some k → sock_ok c k' →
  connected k' = connected k → currentRoom k' = currentRoom k →
  userName k' = userName k →
  inv (set_socket s c k').
Proof.
  intros [Hs Hr Hb] Hk Hk' Hc Hroom Hname. split.
  - intros c0 k0. simpl. intros H.
    apply lookup_insert_Some in H as [[<- <-] | [_ H]]; eauto.
  - done.
  - intros r n Hn. destruct (Hb r n Hn) as (c0 & k0 & H0 & ? & ? & ?).
    destruct (decide (c0 = c)) as [-> | Hne].
    + exists c, k'. simpl. rewrite lookup_insert_eq.
      assert (k0 = k) as -> by congruence. split_and!; [done | congruence..].
    + exists c0, k0. simpl. by rewrite lookup_insert_ne.
Qed.
End Invariants.

Section Preservation.
Implicit Types (s : server) (k : socket) (c : connid) (r n : string).

(** The common shape of [join], [leaveRoom] and [disconnect]: socket
    [c] is replaced, and every roster entry of the new state is an old
    one other than [c]'s, or the one of [c]'s new identity. *)
Lemma inv_rebuild s s' c k k' :
  inv s → sockets s !! c = Some k →
  sockets s' = <[c := k']> (sockets s) →
  sock_ok c k' → rooms_ok s' →
  (∀ r n, n ∈ participants s' r →
     (n ∈ participants s r ∧ ¬ (currentRoom k = Some r ∧ userName k = Some n)) ∨
     (connected k' = true ∧ currentRoom k' = Some r ∧ userName k' = Some n)) →
  inv s'.
Proof.
  intros [Hs Hr Hb] Hk Hsock Hk' Hr' Hentries. split.
  - intros c0 k0. rewrite Hsock. intros H.
    apply lookup_insert_Some in H as [[<- <-] | [_ H]]; eauto.
  - done.
  - intros r n Hn. destruct (Hentries r n Hn) as [[Hold Hnot] | (? & ? & ?)].
    + destruct (Hb r n Hold) as (c0 & k0 & H0 & ? & ? & ?).
      destruct (decide (c0 = c)) as [-> | Hne].
      * exfalso. apply Hnot. assert (k0 = k) as -> by congruence. done.
      * exists c0, k0. rewrite Hsock. by rewrite lookup_insert_ne.
    + exists c, k'. rewrite Hsock. by rewrite lookup_insert_eq.
Qed.

Lemma leave_current_spec {c} s k guard :
  sock_ok c k → guard = bool_decide (is_Some (currentRoom k)) →
  let '(s1, k1, _) := leave_current s k guard in
  sockets s1 = sockets s ∧
  (rooms_ok s → rooms_ok s1) ∧
  (∀ r n, n ∈ participants s1 r ↔
     n ∈ participants s r ∧ ¬ (currentRoom k = Some r ∧ userName k = Some n)) ∧
  connected k1 = connected k ∧ currentRoom k1 = currentRoom k ∧
  userName k1 = userName k ∧ _codeDebounceTimer k1 = _codeDebounceTimer k ∧
  _pendingCode k1 = _pendingCode k ∧
  (∀ r, r ∈ sock_rooms k1 ↔ r ∈ sock_rooms k ∧ currentRoom k ≠ Some r).
Proof.
  intros Hk ->. unfold leave_current.
  destruct (currentRoom k) as [r0 |] eqn:Hr0.
  - rewrite bool_decide_eq_true_2 by eauto.
    destruct (safeLeaveRoom s (Some r0) (userName k)) as [s1 out] eqn:Hl.
    assert (Hs1 : s1 = (safeLeaveRoom s (Some r0) (userName k)).1) by by rewrite Hl.
    subst s1. clear Hl. split_and!; try done.
    + apply safeLeaveRoom_sockets.
    + apply safeLeaveRoom_rooms_ok.
    + intros r n. rewrite safeLeaveRoom_participants.
      assert (r0 ≠ "") by (apply trim_nonempty, (ok_room k Hk); done).
      case_decide as Hd.
      * destruct Hd as [[= ->] _]. rewrite elem_of_set_delete.
        split; intros [? Hne]; (split; [done |]); naive_solver.
      * split; [| by intros [? _]]. intros ?. split; [done |]. naive_solver.
    + intros r. simpl. rewrite elem_of_difference, elem_of_singleton.
      naive_solver.
  - rewrite bool_decide_eq_false_2 by (by intros [? ?]).
    split_and!; try done.
    + intros r n. split; [| by intros [? _]]. intros ?. split; [done |]. naive_solver.
    + intros r. naive_solver.
Qed.
End Preservation.

Section Handlers.
Implicit Types (s : server) (k : socket) (c : connid) (r n : string).

Lemma join_error_None payload :
  join_error payload = None ↔
  ∃ r u, get_prop payload "roomId" = JStr r ∧
         get_prop payload "userName" = JStr u ∧
         trim r ≠ "" ∧ trim u ≠ "".
Proof.
  unfold join_error. split.
  - destruct (truthy payload); simpl; [| done].
    destruct (get_prop payload "roomId") as [| | | | r |]; try done.
    destruct (String.eqb_spec (trim r) ""); simpl; [done |].
    destruct (get_prop payload "userName") as [| | | | u |]; try done.
    destruct (String.eqb_spec (trim u) ""); simpl; [done |].
    intros _. by exists r, u.
  - intros (r & u & Hr & Hu & Hr' & Hu').
    assert (truthy payload = true) as ->.
    { destruct payload; simpl in *; try done. }
    rewrite Hr, Hu. simpl.
    by rewrite !eqb_empty_false.
Qed.

Lemma participants_insert s s0 r l r' :
  participants (set_rooms s (<[r := l]> (rooms s0))) r' =
  if decide (r = r') then l else participants s0 r'.
Proof.
  unfold participants. simpl. case_decide as Hd.
  - subst. by rewrite lookup_insert_eq.
  - by rewrite lookup_insert_ne.
Qed.

Lemma inv_on_join s c k payload :
  inv s → sockets s !! c = Some k → connected k = true →
  inv (on_join s c k payload).1.
Proof.
  intros Hinv Hk Hconn. unfold on_join.
  destruct (join_error payload) as [msg |] eqn:Herr; [done |].
  apply join_error_None in Herr as (r & u & -> & -> & Hr & Hu).
  pose proof (inv_sockets s Hinv c k Hk) as Hok.
  pose proof (leave_current_spec s k (truthy_field (currentRoom k)) Hok
                (proj1 (sock_ok_truthy k Hok))) as Hl.
  destruct (leave_current s k (truthy_field (currentRoom k))) as [[s1 k1] out1].
  destruct Hl as (Hs1 & Hr1 & Hp1 & Hc1 & _ & _ & Htm & Hpc & Hsub).
  simpl.
  eapply (inv_rebuild s _ c k); [done | done | | | |].
  - simpl. by rewrite Hs1.
  - split; simpl; try done.
    + intros ? [= <-]. done.
    + intros ? [= <-]. done.
    + intros _ ? [= <-]. set_solver.
    + intros r' [->%elem_of_singleton | Hin]%elem_of_union.
      * split; [congruence | by left].
      * apply Hsub in Hin as [Hin Hne].
        destruct (ok_rooms k Hok r' Hin) as [_ [? | ->]]; [done |].
        split; [congruence | by right].
    + intros H. congruence.
    + rewrite Htm, Hpc. apply (ok_pending k Hok).
  - intros r' l'. simpl. intros H.
    apply lookup_insert_Some in H as [[_ <-] | [_ H]].
    + split; [apply set_add_nonempty |]. apply NoDup_set_add.
      destruct (rooms s1 !! r) as [l0 |] eqn:Hl0; simpl; [| apply NoDup_nil_2].
      by apply (Hr1 (inv_rooms s Hinv) r).
    + by apply (Hr1 (inv_rooms s Hinv) r').
  - intros r' n'.
    rewrite participants_insert. case_decide as Hd.
    + subst r'. rewrite elem_of_set_add. intros [-> | Hin].
      * right. simpl. by rewrite Hc1.
      * left. apply Hp1. apply Hin.
    + intros Hin. left. apply Hp1. apply Hin.
Qed.

Lemma inv_on_leaveRoom s c k :
  inv s → sockets s !! c = Some k → inv (on_leaveRoom s c k).1.
Proof.
  intros Hinv Hk. unfold on_leaveRoom.
  pose proof (inv_sockets s Hinv c k Hk) as Hok.
  destruct (sock_ok_truthy k Hok) as [Ht1 Ht2].
  pose proof (leave_current_spec s k
                (truthy_field (currentRoom k) && truthy_field (userName k)) Hok) as Hl.
  destruct (leave_current s k _) as [[s1 k1] out1].
  destruct Hl as (Hs1 & Hr1 & Hp1 & Hc1 & _ & _ & Htm & Hpc & Hsub).
  { rewrite Ht1, Ht2. by destruct (bool_decide _). }
  simpl.
  eapply (inv_rebuild s _ c k); [done | done | | | |].
  - simpl. by rewrite Hs1.
  - split; simpl; try done.
    + intros r Hin. apply Hsub in Hin as [Hin Hne].
      destruct (ok_rooms k Hok r Hin) as [? [? | ->]]; [done |].
      split; [congruence | by right].
    + rewrite Hc1, Htm. apply (ok_timer k Hok).
    + rewrite Htm, Hpc. apply (ok_pending k Hok).
  - apply Hr1, Hinv.
  - intros r n Hin. left. by apply Hp1.
Qed.

Lemma inv_on_disconnect s c k :
  inv s → sockets s !! c = Some k → inv (on_disconnect s c k).1.
Proof.
  intros Hinv Hk. unfold on_disconnect.
  pose proof (inv_sockets s Hinv c k Hk) as Hok.
  destruct (sock_ok_truthy k Hok) as [Ht1 Ht2].
  set (k0 := close_socket k). set (s0 := set_socket s c k0).
  set (k1 := match _codeDebounceTimer k0 with
             | Some _ => set_debounce k0 None None
             | None => k0
             end).
  assert (Hk1 : sock_ok c k1).
  { subst k1 k0. unfold close_socket. simpl. destruct Hok.
    destruct (_codeDebounceTimer k) eqn:Htm;
      split; simpl; rewrite ?Htm; try done;
      try (by intros [? ?]); intros ? ?; set_solver. }
  assert (Hid : connected k1 = false ∧ currentRoom k1 = currentRoom k ∧
                userName k1 = userName k).
  { subst k1 k0. unfold close_socket. simpl.
    by destruct (_codeDebounceTimer k). }
  destruct Hid as (Hc1 & Hroom1 & Hname1).
  change (currentRoom k0) with (currentRoom k).
  change (userName k0) with (userName k).
  destruct (truthy_field (currentRoom k) && truthy_field (userName k)) eqn:Hg.
  - destruct (safeLeaveRoom s0 (currentRoom k) (userName k)) as [s1 out] eqn:Hl.
    assert (s1 = (safeLeaveRoom s0 (currentRoom k) (userName k)).1) as ->
      by by rewrite Hl.
    clear Hl. simpl.
    eapply (inv_rebuild s _ c k); [done | done | | done | |].
    + simpl. rewrite safeLeaveRoom_sockets. simpl. by rewrite insert_insert_eq.
    + apply (safeLeaveRoom_rooms_ok s0). apply Hinv.
    + intros r n. simpl.
      change (participants (set_socket ?a c k1) r) with (participants a r).
      rewrite safeLeaveRoom_participants.
      change (participants s0 r) with (participants s r).
      apply andb_true_iff in Hg as [Hg _]. rewrite Ht1 in Hg.
      apply bool_decide_eq_true in Hg as [r0 Hr0].
      case_decide as Hd.
      * rewrite elem_of_set_delete. intros [? ?]. left. split; [done |].
        naive_solver.
      * intros ?. left. split; [done |]. intros [? ?]. apply Hd.
        split; [done |]. by apply trim_nonempty, (ok_room k Hok).
  - simpl.
    eapply (inv_rebuild s _ c k); [done | done | | done | |].
    + simpl. by rewrite insert_insert_eq.
    + apply Hinv.
    + intros r n Hin. left. split; [done |]. intros [Hr0 _].
      rewrite Ht1, Ht2 in Hg. rewrite Hr0 in Hg.
      rewrite bool_decide_eq_true_2 in Hg by eauto. done.
Qed.

Lemma inv_on_codeChange s now c k payload :
  inv s → sockets s !! c = Some k → connected k = true →
  inv (on_codeChange s now c k payload).1.
Proof.
  intros Hinv Hk Hconn. unfold on_codeChange.
  destruct (destructure payload) as [p |]; [| done].
  destruct (get_prop p "roomId") as [| | | | roomId |]; try done.
  destruct (get_prop p "code") as [| | | | code |]; try done.
  destruct (String.eqb roomId ""); [done |].
  case_bool_decide; [| done]. simpl.
  apply (inv_set_socket_same s c k); try done.
  apply sock_ok_set_debounce; [by apply (inv_sockets s Hinv c) | eauto].
Qed.

Lemma inv_on_timeout s now c k :
  inv s → sockets s !! c = Some k → inv (on_timeout s now c k).1.
Proof.
  intros Hinv Hk. unfold on_timeout.
  destruct (_codeDebounceTimer k) as [tm |]; [| done].
  destruct (fires_at tm <=? now); [| done]. simpl.
  apply (inv_set_socket_same s c k); try done.
  apply sock_ok_set_debounce; [by apply (inv_sockets s Hinv c) |].
  by intros [? ?].
Qed.

Lemma inv_connect s c :
  inv s → sockets s !! c = None → inv (set_socket s c (new_socket c)).
Proof.
  intros [Hs Hr Hb] Hc. split.
  - intros c0 k0. simpl. intros H.
    apply lookup_insert_Some in H as [[<- <-] | [_ H]]; [apply sock_ok_new | eauto].
  - done.
  - intros r n Hn. destruct (Hb r n Hn) as (c0 & k0 & H0 & ?).
    exists c0, k0. simpl. rewrite lookup_insert_ne; [done |]. congruence.
Qed.

Lemma inv_step s a : inv s → inv (step s a).1.
Proof.
  intros Hinv. unfold step.
  destruct (sockets s !! from a) as [k |] eqn:Hk.
  - destruct (msg a) eqn:Hm; try (destruct (connected k) eqn:Hc); try done.
    + by apply inv_on_join.
    + by apply inv_on_codeChange.
    + by apply inv_on_leaveRoom.
    + unfold on_typing. by destruct (destructure payload).
    + unfold on_languageChange. destruct (destructure payload) as [p |]; [| done].
      destruct (get_prop p "roomId"); try done.
      by destruct (get_prop p "language").
    + by apply inv_on_disconnect.
    + by apply inv_on_timeout.
    + by apply inv_on_timeout.
  - destruct (msg a); try done. by apply inv_connect.
Qed.

Lemma reachable_inv s : reachable s → inv s.
Proof. induction 1; [apply inv_init | by apply inv_step]. Qed.
End Handlers.

Section Reachability.
Implicit Types (s : server) (k : socket) (c : connid) (r n : string).

Lemma reachable_run s tr : reachable s → reachable (run s tr).1.
Proof.
  revert s. induction tr as [| a tr IH]; intros s Hs; [done |].
  simpl. destruct (step s a) as [s1 out] eqn:Hstep.
  specialize (IH s1). destruct (run s1 tr) as [s2 log]. simpl in *.
  apply IH. replace s1 with (step s a).1 by by rewrite Hstep.
  by constructor.
Qed.

(** In a reachable state [io.to(r)] reaches every open socket whose
    [currentRoom] is [r]; whom it reaches is open, and has [r] for
    [currentRoom] or for its own id. *)
Lemma in_room_subscribers s c k r :
  reachable s → sockets s !! c = Some k → connected k = true →
  currentRoom k = Some r → c ∈ subscribers s r.
Proof.
  intros Hs Hk Hc Hr. apply reachable_inv in Hs. apply elem_of_subscribers.
  exists k. split; [done |]. by apply (ok_joined k (inv_sockets s Hs c k Hk)).
Qed.

Lemma subscribers_open s c r :
  reachable s → c ∈ subscribers s r →
  ∃ k, sockets s !! c = Some k ∧ connected k = true ∧
       (currentRoom k = Some r ∨ c = r).
Proof.
  intros Hs (k & Hk & Hin)%elem_of_subscribers. apply reachable_inv in Hs.
  destruct (ok_rooms k (inv_sockets s Hs c k Hk) r Hin) as [? [? | ->]];
    exists k; eauto.
Qed.

(** When [r] is the id of no socket, these are the same sockets. *)
Lemma subscribers_currentRoom s c r :
  reachable s → r ∉ dom (sockets s) →
  c ∈ subscribers s r ↔
  ∃ k, sockets s !! c = Some k ∧ connected k = true ∧ currentRoom k = Some r.
Proof.
  intros Hs Hr. split.
  - intros Hin. destruct (subscribers_open s c r Hs Hin) as (k & Hk & Hc & [? | ->]).
    + by exists k.
    + exfalso. apply Hr. apply elem_of_dom. eauto.
  - intros (k & Hk & Hc & Hroom). by apply (in_room_subscribers s c k r).
Qed.

(** Whom [io.to(R)] reaches: every open socket whose room is [R]; and
    none besides, but for the socket that has [R] for id, which the
    transport keeps in the room of that name. *)
Lemma subscribers_spec s R :
  reachable s →
  let in_room (d : connid) :=
    ∃ kd, sockets s !! d = Some kd ∧ connected kd = true ∧
          currentRoom kd = Some R in
  (∀ d, in_room d → d ∈ subscribers s R) ∧
  (∀ d, d ∈ subscribers s R → in_room d ∨ d = R) ∧
  (R ∉ dom (sockets s) → ∀ d, d ∈ subscribers s R ↔ in_room d).
Proof.
  intros Hs in_room. split_and!.
  - intros d (kd & ? & ? & ?). by apply (in_room_subscribers s d kd R).
  - intros d Hd.
    destruct (subscribers_open s d R Hs Hd) as (kd & ? & ? & [? | ?]);
      [left; by exists kd | by right].
  - intros Hid d. by apply subscribers_currentRoom.
Qed.
End Reachability.

(** ** Identity fields *)

(** C9. In every reachable state the [currentRoom] and [userName] of a
    socket are both [null] or both set; as every handler turn leads from
    a reachable state to a reachable state, none leaves one of the two
    set alone. *)
Theorem identity_fields_set_together (s : server) (c : connid) (k : socket) :
  reachable s → sockets s !! c = Some k →
  (currentRoom k = None ∧ userName k = None) ∨
  (is_Some (currentRoom k) ∧ is_Some (userName k)).
Proof.
  intros Hs Hk. apply reachable_inv in Hs.
  destruct (ok_both k (inv_sockets s Hs c k Hk)) as [H1 H2].
  destruct (currentRoom k) as [r |] eqn:Hr.
  - right. split; [eauto |]. destruct (userName k) eqn:Hn; [eauto |].
    by specialize (H2 eq_refl).
  - left. split; [done |]. by apply H1.
Qed.

Lemma identity_fields_set_together_witness :
  let s := (run init [Arrival 0 "X" Connect;
                      Arrival 1 "X" (Join (join_payload "ABC123" "Alice"));
                      Arrival 2 "X" (CodeChange (code_payload "ABC123" "a"));
                      Arrival 3 "X" Disconnect]).1 in
  let k := Socket false ∅ (Some "ABC123") (Some "Alice") None None in
  (currentRoom k = None ∧ userName k = None) ∨
  (is_Some (currentRoom k) ∧ is_Some (userName k)).
Proof.
  intros s k. apply (identity_fields_set_together s "X" k).
  - apply reachable_run, reachable_init.
  - vm_compute. reflexivity.
Defined.

Section Join.
Implicit Types (s : server) (k : socket) (c : connid) (r n u : string).

Lemma step_open s t c k m :
  sockets s !! c = Some k → connected k = true →
  step s (Arrival t c m) =
  match m with
  | Connect => (s, [])
  | Join payload => on_join s c k payload
  | CodeChange payload => on_codeChange s t c k payload
  | LeaveRoom => on_leaveRoom s c k
  | Typing payload => on_typing s c payload
  | LanguageChange payload => on_languageChange s payload
  | Disconnect => on_disconnect s c k
  | TimerDue => on_timeout s t c k
  end.
Proof. intros Hk Hc. unfold step. simpl. rewrite Hk, Hc. by destruct m. Qed.

Lemma on_join_valid s c k payload r u :
  get_prop payload "roomId" = JStr r → get_prop payload "userName" = JStr u →
  trim r ≠ "" → trim u ≠ "" →
  on_join s c k payload =
  let '(s1, k1, out1) := leave_current s k (truthy_field (currentRoom k)) in
  let k2 := set_identity (socket_join k1 r) (Some r) (Some u) in
  let s3 := Server (<[r := set_add u (participants s1 r)]> (rooms s1))
                   (<[c := k2]> (sockets s1)) in
  (s3, out1 ++ [Emit (subscribers s3 r) (UserJoined (participants s3 r))]).
Proof.
  intros Hr Hu Hr' Hu'. unfold on_join.
  assert (join_error payload = None) as ->.
  { apply join_error_None. by exists r, u. }
  rewrite Hr, Hu. by destruct (leave_current s k _) as [[s1 k1] out1].
Qed.

(** What a valid [join] leaves behind. *)
Lemma on_join_valid_state s c k payload r u :
  inv s → sockets s !! c = Some k →
  get_prop payload "roomId" = JStr r → get_prop payload "userName" = JStr u →
  trim r ≠ "" → trim u ≠ "" →
  let '(s', out) := on_join s c k payload in
  sockets s' !! c =
    Some (Socket (connected k)
                 ({[r]} ∪ sock_rooms k ∖
                    match currentRoom k with Some A => {[A]} | None => ∅ end)
                 (Some r) (Some u)
                 (_codeDebounceTimer k) (_pendingCode k)) ∧
  (∀ c', c' ≠ c → sockets s' !! c' = sockets s !! c') ∧
  (∀ r' n, n ∈ participants s' r' ↔
     (r' = r ∧ n = u) ∨
     (n ∈ participants s r' ∧ ¬ (currentRoom k = Some r' ∧ userName k = Some n))) ∧
  ∃ out0, out = out0 ++ [Emit (subscribers s' r) (UserJoined (participants s' r))].
Proof.
  intros Hinv Hk Hr Hu Hr' Hu'.
  rewrite (on_join_valid s c k payload r u) by done.
  pose proof (inv_sockets s Hinv c k Hk) as Hok.
  pose proof (leave_current_spec s k (truthy_field (currentRoom k)) Hok
                (proj1 (sock_ok_truthy k Hok))) as Hl.
  destruct (leave_current s k (truthy_field (currentRoom k))) as [[s1 k1] out1].
  destruct Hl as (Hs1 & Hr1 & Hp1 & Hc1 & _ & _ & Htm & Hpc & Hsub).
  cbv zeta. split_and!.
  - simpl. rewrite lookup_insert_eq. unfold set_identity, socket_join. simpl.
    rewrite Hc1, Htm, Hpc. f_equal. f_equal. apply set_eq. intros r'.
    rewrite !elem_of_union, Hsub, elem_of_difference.
    destruct (currentRoom k); set_solver.
  - intros c' Hne. simpl. by rewrite lookup_insert_ne, Hs1.
  - intros r' n. unfold participants at 1. simpl.
    destruct (decide (r = r')) as [<- | Hne].
    + rewrite lookup_insert_eq. simpl. rewrite elem_of_set_add, Hp1. naive_solver.
    + rewrite lookup_insert_ne by done.
      change (default [] (rooms s1 !! r')) with (participants s1 r').
      rewrite Hp1. naive_solver.
  - by exists out1.
Qed.
End Join.

Section Departure.
Implicit Types (s : server) (k : socket) (c : connid) (r n u : string).

Lemma leave_current_participants {c} s k guard r :
  sock_ok c k → guard = bool_decide (is_Some (currentRoom k)) →
  participants (leave_current s k guard).1.1 r =
  if decide (currentRoom k = Some r)
  then set_delete (userName k) (participants s r)
  else participants s r.
Proof.
  intros Hok ->. unfold leave_current.
  destruct (currentRoom k) as [A |] eqn:HA.
  - rewrite bool_decide_eq_true_2 by eauto.
    pose proof (safeLeaveRoom_participants s (Some A) (userName k) r) as Hp.
    destruct (safeLeaveRoom s (Some A) (userName k)) as [s1 out]. cbn [fst] in *.
    rewrite Hp. case_decide as H1; case_decide as H2; try done.
    + by destruct H1.
    + exfalso. apply H1. split; [done |]. injection H2 as <-.
      by apply trim_nonempty, (ok_room k Hok).
  - rewrite bool_decide_eq_false_2 by (by intros [? ?]). cbn [fst].
    by rewrite decide_False.
Qed.

(** The roster of the room a socket leaves, after the turn. *)
Lemma departure_participants s a k r n :
  inv s → sockets s !! from a = Some k → connected k = true →
  currentRoom k = Some r → userName k = Some n → departs (msg a) r →
  participants (step s a).1 r = set_delete (Some n) (participants s r).
Proof.
  intros Hinv Hk Hc Hr Hn Hdep. destruct a as [t c m]. simpl in *.
  pose proof (inv_sockets s Hinv c k Hk) as Hok.
  destruct (sock_ok_truthy k Hok) as [Ht1 Ht2].
  rewrite (step_open s t c k) by done.
  destruct m as [| p | p | | p | p | |]; try done.
  - destruct Hdep as [He Hne].
    apply join_error_None in He as (B & u & HB & Hu & HB' & Hu').
    rewrite (on_join_valid s c k p B u) by done.
    pose proof (leave_current_participants s k (truthy_field (currentRoom k)) r
                  Hok Ht1) as Hp.
    destruct (leave_current s k _) as [[s1 k1] out1]. cbn [fst] in *.
    unfold participants at 1. simpl.
    rewrite lookup_insert_ne by congruence.
    change (default [] (rooms s1 !! r)) with (participants s1 r).
    by rewrite Hp, decide_True, Hn.
  - unfold on_leaveRoom.
    pose proof (leave_current_participants s k
                  (truthy_field (currentRoom k) && truthy_field (userName k)) r Hok) as Hp.
    destruct (leave_current s k _) as [[s1 k1] out1]. cbn [fst] in *.
    change (participants (set_socket s1 c ?x) r) with (participants s1 r).
    rewrite Hp, decide_True, Hn; [done .. |].
    rewrite Ht1, Ht2. by destruct (bool_decide _).
  - unfold on_disconnect.
    change (currentRoom (close_socket k)) with (currentRoom k).
    change (userName (close_socket k)) with (userName k).
    rewrite Ht1, Ht2, Hr. rewrite bool_decide_eq_true_2 by eauto. cbn [andb].
    pose proof (safeLeaveRoom_participants (set_socket s c (close_socket k))
                  (Some r) (userName k) r) as Hp.
    destruct (safeLeaveRoom _ (Some r) (userName k)) as [s' o].
    cbv beta iota zeta. cbn [fst] in *.
    change (participants (set_socket s' c ?x) r) with (participants s' r).
    rewrite Hp, decide_True, Hn; [done |]. split; [done |].
    by apply trim_nonempty, (ok_room k Hok).
Qed.

Lemma directory_participants s r :
  rooms_ok s → r ∈ dom (rooms s) ↔ ∃ n, n ∈ participants s r.
Proof.
  intros Hok. rewrite elem_of_dom, (rooms_ok_participants s r Hok). split.
  - destruct (participants s r) as [| n l]; [done |]. intros _. exists n. left.
  - intros [n Hn] Hnil. rewrite Hnil in Hn. by apply not_elem_of_nil in Hn.
Qed.
End Departure.

(** ** Room lifecycle *)

(** C4. In every reachable state a room id is in the directory exactly
    when its participant set has a member, no empty set is stored, and
    every name of the set is the name of an open socket that is in the
    room.  When a socket leaves the room, by [leaveRoom], by
    [disconnect] or by a [join] for another room, that turn takes its
    name out of the set, and the room stays in the directory exactly
    when another name is left: the turn in which the last participant
    leaves deletes the room. *)
Theorem room_in_directory_iff_nonempty (s : server) (r : string) :
  reachable s →
  (r ∈ dom (rooms s) ↔ ∃ n, n ∈ participants s r) ∧
  rooms s !! r ≠ Some [] ∧
  (∀ n, n ∈ participants s r →
     ∃ c k, sockets s !! c = Some k ∧ connected k = true ∧
            currentRoom k = Some r ∧ userName k = Some n) ∧
  (∀ (a : arrival) (k : socket) (n : string),
     sockets s !! from a = Some k → connected k = true →
     currentRoom k = Some r → userName k = Some n → departs (msg a) r →
     let s' := (step s a).1 in
     participants s' r = set_delete (Some n) (participants s r) ∧
     (r ∈ dom (rooms s') ↔ ∃ n', n' ∈ participants s r ∧ n' ≠ n) ∧
     (participants s r = [n] → r ∉ dom (rooms s'))).
Proof.
  intros Hs. pose proof (reachable_inv s Hs) as Hinv.
  pose proof (inv_rooms s Hinv) as Hok. split_and!.
  - by apply directory_participants.
  - intros H. by destruct (Hok r [] H).
  - apply (inv_backed s Hinv).
  - intros a k n Hk Hc Hr Hn Hdep s'.
    pose proof (departure_participants s a k r n Hinv Hk Hc Hr Hn Hdep) as Hp.
    pose proof (inv_rooms _ (reachable_inv _ (reachable_step s a Hs))) as Hok'.
    assert (Hiff : r ∈ dom (rooms s') ↔ ∃ n', n' ∈ participants s r ∧ n' ≠ n).
    { subst s'. rewrite (directory_participants _ r Hok'), Hp.
      split; intros [n' Hn']; exists n'.
      - apply elem_of_set_delete in Hn' as [? ?]. split; [done | congruence].
      - apply elem_of_set_delete. destruct Hn'. split; [done | congruence]. }
    split_and!; [done | done |].
    intros Hone. rewrite Hiff, Hone. intros (n' & Hin & Hne).
    apply list_elem_of_singleton in Hin. done.
Qed.

Lemma room_in_directory_iff_nonempty_witness :
  let s := (run init [Arrival 0 "X" Connect;
                      Arrival 1 "X" (Join (join_payload "ABC123" "Alice"))]).1 in
  let s' := (step s (Arrival 2 "X" LeaveRoom)).1 in
  "ABC123" ∈ dom (rooms s) ∧ participants s "ABC123" = ["Alice"] ∧
  participants s' "ABC123" = [] ∧ "ABC123" ∉ dom (rooms s').
Proof.
  intros s s'.
  destruct (room_in_directory_iff_nonempty s "ABC123") as (Hdir & _ & _ & Hdep).
  - apply reachable_run, reachable_init.
  - destruct (Hdep (Arrival 2 "X" LeaveRoom)
                (Socket true {["X"; "ABC123"]} (Some "ABC123") (Some "Alice") None None)
                "Alice") as (Hp & _ & Hgone).
    + vm_compute. reflexivity.
    + reflexivity.
    + reflexivity.
    + reflexivity.
    + exact I.
    + assert (Hone : participants s "ABC123" = ["Alice"]) by (vm_compute; reflexivity).
      split_and!.
      * apply Hdir. exists "Alice". rewrite Hone. left.
      * done.
      * fold s' in Hp. rewrite Hp, Hone. vm_compute. reflexivity.
      * by apply Hgone.
Defined.

(** The participants are names: when two sockets are in a room under
    one name, the departure of one takes the name out of the set, and
    the room out of the directory, though the other is still in it. *)
Example room_deleted_under_shared_name :
  let s := (run init [Arrival 0 "X" Connect; Arrival 0 "Y" Connect;
                      Arrival 1 "X" (Join (join_payload "A" "Bob"));
                      Arrival 2 "Y" (Join (join_payload "A" "Bob"));
                      Arrival 3 "Y" LeaveRoom]).1 in
  rooms s = ∅ ∧
  sockets s !! "X"
  = Some (Socket true {["X"; "A"]} (Some "A") (Some "Bob") None None).
Proof. split; vm_compute; reflexivity. Qed.

(** ** Rejected joins *)

(** C7. A [join] whose [roomId] is not a non-empty string, or whose
    [userName] is not a string that is non-empty after trimming, gets one
    [error] event, sent to the requesting socket alone; the server state
    is what it was, no other event is emitted, and a valid [join] sent
    afterwards puts the socket in its room. *)
Theorem invalid_join_rejected
  (s : server) (c : connid) (k : socket) (t : Z) (payload : jsval) :
  reachable s → sockets s !! c = Some k → connected k = true →
  (¬ (∃ r, get_prop payload "roomId" = JStr r ∧ r ≠ "") ∨
   ¬ (∃ u, get_prop payload "userName" = JStr u ∧ trim u ≠ "")) →
  (∃ message,
     step s (Arrival t c (Join payload)) = (s, [Emit {[c]} (Error message)])) ∧
  ∀ t' r u, trim r ≠ "" → trim u ≠ "" →
    let s1 := (step s (Arrival t c (Join payload))).1 in
    let s2 := (step s1 (Arrival t' c (Join (join_payload r u)))).1 in
    ∃ k', sockets s2 !! c = Some k' ∧ connected k' = true ∧
          currentRoom k' = Some r ∧ userName k' = Some u ∧
          u ∈ participants s2 r.
Proof.
  intros Hs Hk Hc Hbad.
  assert (Herr : ∃ message, join_error payload = Some message).
  { destruct (join_error payload) as [m |] eqn:He; [eauto |]. exfalso.
    apply join_error_None in He as (r & u & Hr & Hu & Hr' & Hu').
    destruct Hbad as [Hbad | Hbad]; apply Hbad.
    - exists r. split; [done |]. by apply trim_nonempty.
    - by exists u. }
  destruct Herr as [message Herr].
  assert (Hstep : step s (Arrival t c (Join payload)) =
                  (s, [Emit {[c]} (Error message)])).
  { rewrite (step_open s t c k) by done. unfold on_join. by rewrite Herr. }
  split; [eauto |].
  intros t' r u Hr Hu. rewrite Hstep. simpl.
  rewrite (step_open s t' c k) by done.
  pose proof (on_join_valid_state s c k (join_payload r u) r u
                (reachable_inv s Hs) Hk eq_refl eq_refl Hr Hu) as Hj.
  destruct (on_join s c k (join_payload r u)) as [s2 out].
  destruct Hj as (Hk2 & _ & Hp & _). simpl.
  eexists. split; [apply Hk2 |]. simpl. split_and!; try done.
  apply Hp. by left.
Qed.

Lemma invalid_join_rejected_witness :
  let s := (run init [Arrival 0 "Y" Connect]).1 in
  let payload := JObj [("roomId", JStr ""); ("userName", JStr "Bob")] in
  (∃ message,
     step s (Arrival 5 "Y" (Join payload)) = (s, [Emit {["Y"]} (Error message)])) ∧
  ∀ t' r u, trim r ≠ "" → trim u ≠ "" →
    let s1 := (step s (Arrival 5 "Y" (Join payload))).1 in
    let s2 := (step s1 (Arrival t' "Y" (Join (join_payload r u)))).1 in
    ∃ k', sockets s2 !! "Y" = Some k' ∧ connected k' = true ∧
          currentRoom k' = Some r ∧ userName k' = Some u ∧
          u ∈ participants s2 r.
Proof.
  intros s payload.
  apply (invalid_join_rejected s "Y" (new_socket "Y") 5 payload).
  - apply reachable_run, reachable_init.
  - vm_compute. reflexivity.
  - reflexivity.
  - left. intros (r & Hr & Hne). simpl in Hr. congruence.
Defined.

(** ** The name a join stores *)

(** C10. A valid [join] whose [userName] has leading or trailing white
    space stores that string as it came: in [socket.data.userName], in
    the room's participant set and in the roster it broadcasts.  The
    trimmed string is not what is added, so a participant entered under
    the trimmed name stays a separate entry of the same room. *)
Theorem join_stores_untrimmed_name
  (s : server) (c : connid) (k : socket) (t : Z) (payload : jsval)
  (r u : string) :
  reachable s → sockets s !! c = Some k → connected k = true →
  get_prop payload "roomId" = JStr r → get_prop payload "userName" = JStr u →
  trim r ≠ "" → trim u ≠ "" → trim u ≠ u →
  let '(s', out) := step s (Arrival t c (Join payload)) in
  (∃ k', sockets s' !! c = Some k' ∧ currentRoom k' = Some r ∧
         userName k' = Some u) ∧
  u ∈ participants s' r ∧
  (∃ out0, out = out0 ++ [Emit (subscribers s' r) (UserJoined (participants s' r))]) ∧
  c ∈ subscribers s' r ∧
  (trim u ∈ participants s' r →
     trim u ∈ participants s r ∧
     ¬ (currentRoom k = Some r ∧ userName k = Some (trim u))) ∧
  (trim u ∈ participants s r →
     ¬ (currentRoom k = Some r ∧ userName k = Some (trim u)) →
     trim u ∈ participants s' r ∧
     ∃ i j, i ≠ j ∧ participants s' r !! i = Some (trim u) ∧
            participants s' r !! j = Some u).
Proof.
  intros Hs Hk Hc Hr Hu Hr' Hu' Hws.
  rewrite (step_open s t c k) by done.
  pose proof (on_join_valid_state s c k payload r u
                (reachable_inv s Hs) Hk Hr Hu Hr' Hu') as Hj.
  destruct (on_join s c k payload) as [s' out].
  destruct Hj as (Hk' & _ & Hp & Hout).
  assert (Hu_in : u ∈ participants s' r) by (apply Hp; by left).
  split_and!.
  - eexists. split; [apply Hk' |]. done.
  - done.
  - done.
  - apply elem_of_subscribers. eexists. split; [apply Hk' |]. simpl. set_solver.
  - intros Hin. apply Hp in Hin as [[_ Heq] | Hold]; [congruence | done].
  - intros Hin Hnot.
    assert (Ht_in : trim u ∈ participants s' r) by (apply Hp; by right).
    split; [done |].
    apply list_elem_of_lookup in Ht_in as [i Hi].
    apply list_elem_of_lookup in Hu_in as [j Hj].
    exists i, j. split_and!; [| done | done]. intros ->. congruence.
Qed.

Lemma join_stores_untrimmed_name_witness :
  let s := (run init [Arrival 0 "X" Connect; Arrival 0 "Y" Connect;
                      Arrival 1 "X" (Join (join_payload "ABC123" "Bob"))]).1 in
  let '(s', out) :=
    step s (Arrival 2 "Y" (Join (join_payload "ABC123" "  Bob  "))) in
  (∃ k', sockets s' !! "Y" = Some k' ∧ currentRoom k' = Some "ABC123" ∧
         userName k' = Some "  Bob  ") ∧
  "  Bob  " ∈ participants s' "ABC123" ∧
  (∃ out0, out = out0 ++ [Emit (subscribers s' "ABC123")
                            (UserJoined (participants s' "ABC123"))]) ∧
  "Y" ∈ subscribers s' "ABC123" ∧
  (trim "  Bob  " ∈ participants s' "ABC123" →
     trim "  Bob  " ∈ participants s "ABC123" ∧
     ¬ (currentRoom (new_socket "Y") = Some "ABC123" ∧
        userName (new_socket "Y") = Some (trim "  Bob  "))) ∧
  (trim "  Bob  " ∈ participants s "ABC123" →
     ¬ (currentRoom (new_socket "Y") = Some "ABC123" ∧
        userName (new_socket "Y") = Some (trim "  Bob  ")) →
     trim "  Bob  " ∈ participants s' "ABC123" ∧
     ∃ i j, i ≠ j ∧ participants s' "ABC123" !! i = Some (trim "  Bob  ") ∧
            participants s' "ABC123" !! j = Some "  Bob  ").
Proof.
  intros s.
  apply (join_stores_untrimmed_name s "Y" (new_socket "Y") 2
           (join_payload "ABC123" "  Bob  ") "ABC123" "  Bob  ").
  - apply reachable_run, reachable_init.
  - vm_compute. reflexivity.
  - reflexivity.
  - reflexivity.
  - reflexivity.
  - vm_compute. discriminate.
  - vm_compute. discriminate.
  - vm_compute. discriminate.
Defined.

(** The roster of the example: two entries, the second with its spaces. *)
Example bob_and_spaced_bob :
  (run init [Arrival 0 "X" Connect; Arrival 0 "Y" Connect;
             Arrival 1 "X" (Join (join_payload "ABC123" "Bob"));
             Arrival 2 "Y" (Join (join_payload "ABC123" "  Bob  "))]).2
  = [("X", Emit {["X"]} (UserJoined ["Bob"]));
     ("Y", Emit {["X"; "Y"]} (UserJoined ["Bob"; "  Bob  "]))].
Proof. vm_compute. reflexivity. Qed.

Section Leave.
Implicit Types (s : server) (k : socket) (c : connid) (r n u : string).

Lemma safeLeaveRoom_leave_effects s A name :
  A ≠ "" →
  (safeLeaveRoom s (Some A) name).2 =
  leave_effects s (Some A) name (subscribers s A).
Proof.
  intros HA. rewrite safeLeaveRoom_effects, safeLeaveRoom_participants.
  unfold leave_effects. rewrite (decide_True (P := Some A = Some A ∧ A ≠ "")) by done.
  case_decide as H1; case_decide as H2; try done.
  - exfalso. apply H2. apply elem_of_dom. by destruct H1.
  - exfalso. apply H1. split; [done |]. by apply elem_of_dom.
Qed.

Lemma leave_current_effects {c} s k guard :
  sock_ok c k → guard = bool_decide (is_Some (currentRoom k)) →
  (leave_current s k guard).2 =
  leave_effects s (currentRoom k) (userName k)
    (match currentRoom k with Some A => subscribers s A | None => ∅ end).
Proof.
  intros Hk ->. unfold leave_current.
  destruct (currentRoom k) as [A |] eqn:HA.
  - rewrite bool_decide_eq_true_2 by eauto.
    rewrite <- (safeLeaveRoom_leave_effects s A (userName k))
      by (apply trim_nonempty, (ok_room k Hk); done).
    by destruct (safeLeaveRoom s (Some A) (userName k)).
  - rewrite bool_decide_eq_false_2; [done |]. by intros [? ?].
Qed.

Lemma subscribers_close s c k r :
  subscribers (set_socket s c (close_socket k)) r = subscribers s r ∖ {[c]}.
Proof.
  apply set_eq. intros c'.
  rewrite elem_of_difference, !elem_of_subscribers, elem_of_singleton. simpl.
  destruct (decide (c' = c)) as [-> | Hne].
  - rewrite lookup_insert_eq. split; [| naive_solver].
    intros (k' & [= <-] & Hin). simpl in Hin. set_solver.
  - rewrite lookup_insert_ne by done. naive_solver.
Qed.

Lemma on_leaveRoom_effects s c k :
  sock_ok c k →
  (on_leaveRoom s c k).2 =
  leave_effects s (currentRoom k) (userName k)
    (match currentRoom k with Some A => subscribers s A | None => ∅ end).
Proof.
  intros Hk. unfold on_leaveRoom.
  destruct (sock_ok_truthy k Hk) as [Ht1 Ht2].
  rewrite <- (leave_current_effects s k
    (truthy_field (currentRoom k) && truthy_field (userName k)) Hk).
  - by destruct (leave_current s k _) as [[s1 k1] out].
  - rewrite Ht1, Ht2. by destruct (bool_decide _).
Qed.

Lemma on_disconnect_effects s c k :
  sock_ok c k →
  (on_disconnect s c k).2 =
  leave_effects s (currentRoom k) (userName k)
    (match currentRoom k with Some A => subscribers s A ∖ {[c]} | None => ∅ end).
Proof.
  intros Hk. unfold on_disconnect.
  destruct (sock_ok_truthy k Hk) as [Ht1 Ht2].
  change (currentRoom (close_socket k)) with (currentRoom k).
  change (userName (close_socket k)) with (userName k).
  rewrite Ht1, Ht2.
  destruct (currentRoom k) as [A |] eqn:HA.
  - rewrite bool_decide_eq_true_2 by eauto. cbn [andb].
    pose proof (safeLeaveRoom_leave_effects (set_socket s c (close_socket k))
                  A (userName k)) as He.
    destruct (safeLeaveRoom _ (Some A) (userName k)) as [s1 out].
    cbn [snd] in *. rewrite He by (apply trim_nonempty, (ok_room k Hk); done).
    by rewrite subscribers_close.
  - rewrite bool_decide_eq_false_2; [done |]. by intros [? ?].
Qed.

(** The directory after a leave. *)
Lemma on_leaveRoom_participants s c k r n :
  sock_ok c k →
  n ∈ participants (on_leaveRoom s c k).1 r ↔
  n ∈ participants s r ∧ ¬ (currentRoom k = Some r ∧ userName k = Some n).
Proof.
  intros Hk. unfold on_leaveRoom.
  destruct (sock_ok_truthy k Hk) as [Ht1 Ht2].
  pose proof (leave_current_spec s k
                (truthy_field (currentRoom k) && truthy_field (userName k)) Hk) as Hl.
  destruct (leave_current s k _) as [[s1 k1] out1].
  destruct Hl as (_ & _ & Hp1 & _).
  { rewrite Ht1, Ht2. by destruct (bool_decide _). }
  apply Hp1.
Qed.
End Leave.

(** ** The roster broadcast of a leave *)

(** C3, as stated, fails: the last participant's [leaveRoom] emits the
    empty roster, and the leaving socket, still in the transport's room,
    receives it. *)
Lemma leave_roster_reaches_leaver :
  ¬ (∀ (s : server) (c : connid) (k : socket) (A : string) (t : Z)
       (tg : gset string) (users : list string),
       reachable s → sockets s !! c = Some k → connected k = true →
       currentRoom k = Some A →
       Emit tg (UserJoined users) ∈ (step s (Arrival t c LeaveRoom)).2 →
       (c ∉ tg) ∧ (users = [] → tg = ∅)).
Proof.
  intros H.
  set (s := (run init [Arrival 0 "X" Connect;
                       Arrival 1 "X" (Join (join_payload "ABC123" "Alice"))]).1).
  destruct (H s "X" (Socket true {["X"; "ABC123"]} (Some "ABC123") (Some "Alice") None None)
              "ABC123" 2 {["X"]} []) as [Hnot _].
  - apply reachable_run, reachable_init.
  - vm_compute. reflexivity.
  - reflexivity.
  - reflexivity.
  - assert ((step s (Arrival 2 "X" LeaveRoom)).2 = [Emit {["X"]} (UserJoined [])])
      as -> by (vm_compute; reflexivity).
    left.
  - apply Hnot. set_solver.
Qed.

(** C3, amended.  When a socket in room [A] leaves and the directory
    holds [A], one [userJoined] is emitted, with [A]'s roster less the
    leaving name: the empty list exactly when that removes the room.  On
    [leaveRoom] it goes to the sockets the transport has in room [A]:
    every open socket whose room is [A], the leaving one among them,
    and the open socket whose id is [A] if there is one; these are all.
    On [disconnect] it goes to the same sockets but the leaving one.
    When the directory does not hold [A], nothing is emitted. *)
Theorem leave_roster_broadcast
  (s : server) (c : connid) (k : socket) (A n : string) (t : Z) :
  reachable s → sockets s !! c = Some k → connected k = true →
  currentRoom k = Some A → userName k = Some n →
  let in_room (d : connid) :=
    ∃ kd, sockets s !! d = Some kd ∧ connected kd = true ∧
          currentRoom kd = Some A in
  let own_id (d : connid) :=
    d = A ∧ ∃ kd, sockets s !! d = Some kd ∧ connected kd = true in
  let roster := set_delete (Some n) (participants s A) in
  let '(s1, out1) := step s (Arrival t c LeaveRoom) in
  let '(s2, out2) := step s (Arrival t c Disconnect) in
  (A ∈ dom (rooms s) →
     out1 = [Emit (subscribers s A) (UserJoined roster)] ∧
     out2 = [Emit (subscribers s A ∖ {[c]}) (UserJoined roster)] ∧
     c ∈ subscribers s A ∧
     (∀ d, in_room d → d ∈ subscribers s A) ∧
     (∀ d, d ∈ subscribers s A → in_room d ∨ own_id d) ∧
     participants s1 A = roster ∧ participants s2 A = roster ∧
     (roster = [] ↔ A ∉ dom (rooms s1)) ∧
     (roster = [] ↔ A ∉ dom (rooms s2))) ∧
  (A ∉ dom (rooms s) → out1 = [] ∧ out2 = []).
Proof.
  intros Hs Hk Hc HA Hn in_room own_id roster.
  pose proof (reachable_inv s Hs) as Hinv.
  pose proof (inv_sockets s Hinv c k Hk) as Hok.
  pose proof (reachable_inv _ (reachable_step s (Arrival t c LeaveRoom) Hs)) as Hinv1.
  pose proof (reachable_inv _ (reachable_step s (Arrival t c Disconnect) Hs)) as Hinv2.
  assert (Hp1 : participants (step s (Arrival t c LeaveRoom)).1 A = roster)
    by by apply (departure_participants s (Arrival t c LeaveRoom) k A n).
  assert (Hp2 : participants (step s (Arrival t c Disconnect)).1 A = roster)
    by by apply (departure_participants s (Arrival t c Disconnect) k A n).
  assert (He1 : (step s (Arrival t c LeaveRoom)).2 =
                leave_effects s (Some A) (Some n) (subscribers s A)).
  { rewrite (step_open s t c k) by done.
    by rewrite (on_leaveRoom_effects s c k Hok), HA, Hn. }
  assert (He2 : (step s (Arrival t c Disconnect)).2 =
                leave_effects s (Some A) (Some n) (subscribers s A ∖ {[c]})).
  { rewrite (step_open s t c k) by done.
    by rewrite (on_disconnect_effects s c k Hok), HA, Hn. }
  destruct (step s (Arrival t c LeaveRoom)) as [s1 out1].
  destruct (step s (Arrival t c Disconnect)) as [s2 out2].
  cbn [fst snd] in *. unfold leave_effects in He1, He2. split.
  - intros Hdom. rewrite decide_True in He1, He2 by done. split_and!; try done.
    + by apply (in_room_subscribers s c k A).
    + intros d (kd & ? & ? & ?). by apply (in_room_subscribers s d kd A).
    + intros d Hd. destruct (subscribers_open s d A Hs Hd) as (kd & ? & ? & [? | ->]).
      * left. by exists kd.
      * right. split; [done |]. by exists kd.
    + rewrite <- Hp1, elem_of_dom, (rooms_ok_participants s1 A (inv_rooms _ Hinv1)).
      split; [intros ->; tauto |]. intros H. by destruct (decide (participants s1 A = [])).
    + rewrite <- Hp2, elem_of_dom, (rooms_ok_participants s2 A (inv_rooms _ Hinv2)).
      split; [intros ->; tauto |]. intros H. by destruct (decide (participants s2 A = [])).
  - intros Hdom. by rewrite decide_False in He1, He2 by done.
Qed.

Lemma leave_roster_broadcast_witness :
  let s := (run init [Arrival 0 "X" Connect; Arrival 0 "Y" Connect;
                      Arrival 1 "X" (Join (join_payload "ABC123" "Alice"));
                      Arrival 2 "Y" (Join (join_payload "ABC123" "Bob"))]).1 in
  let in_room (d : connid) :=
    ∃ kd, sockets s !! d = Some kd ∧ connected kd = true ∧
          currentRoom kd = Some "ABC123" in
  let own_id (d : connid) :=
    d = "ABC123" ∧ ∃ kd, sockets s !! d = Some kd ∧ connected kd = true in
  let roster := set_delete (Some "Bob") (participants s "ABC123") in
  let '(s1, out1) := step s (Arrival 3 "Y" LeaveRoom) in
  let '(s2, out2) := step s (Arrival 3 "Y" Disconnect) in
  ("ABC123" ∈ dom (rooms s) →
     out1 = [Emit (subscribers s "ABC123") (UserJoined roster)] ∧
     out2 = [Emit (subscribers s "ABC123" ∖ {["Y"]}) (UserJoined roster)] ∧
     "Y" ∈ subscribers s "ABC123" ∧
     (∀ d, in_room d → d ∈ subscribers s "ABC123") ∧
     (∀ d, d ∈ subscribers s "ABC123" → in_room d ∨ own_id d) ∧
     participants s1 "ABC123" = roster ∧ participants s2 "ABC123" = roster ∧
     (roster = [] ↔ "ABC123" ∉ dom (rooms s1)) ∧
     (roster = [] ↔ "ABC123" ∉ dom (rooms s2))) ∧
  ("ABC123" ∉ dom (rooms s) → out1 = [] ∧ out2 = []).
Proof.
  intros s.
  apply (leave_roster_broadcast s "Y"
           (Socket true {["Y"; "ABC123"]} (Some "ABC123") (Some "Bob") None None)
           "ABC123" "Bob" 3).
  - apply reachable_run, reachable_init.
  - vm_compute. reflexivity.
  - reflexivity.
  - reflexivity.
  - reflexivity.
Defined.

(** ** One room at a time *)

(** C8, as stated, fails: rosters hold names, and two sockets that joined
    different rooms under one name put that name in both rosters. *)
Lemma name_counted_in_two_rosters :
  ¬ (∀ (s : server) (c : connid) (k : socket) (n r1 r2 : string),
       reachable s → sockets s !! c = Some k → userName k = Some n →
       n ∈ participants s r1 → n ∈ participants s r2 → r1 = r2).
Proof.
  intros H.
  set (s := (run init [Arrival 0 "X" Connect; Arrival 0 "Y" Connect;
                       Arrival 1 "X" (Join (join_payload "A" "Bob"));
                       Arrival 2 "Y" (Join (join_payload "B" "Bob"))]).1).
  assert (HA : participants s "A" = ["Bob"]) by (vm_compute; reflexivity).
  assert (HB : participants s "B" = ["Bob"]) by (vm_compute; reflexivity).
  assert (Heq : "A" = "B"); [| discriminate].
  apply (H s "X" (Socket true {["X"; "A"]} (Some "A") (Some "Bob") None None) "Bob").
  - apply reachable_run, reachable_init.
  - vm_compute. reflexivity.
  - reflexivity.
  - rewrite HA. left.
  - rewrite HB. left.
Qed.

(** C8, amended.  A valid [join] for room [B] by a socket in room [A]
    that the directory holds first takes the socket's name out of [A]'s
    roster and broadcasts that roster to [A], then adds the new name to
    [B]'s roster and broadcasts it to [B]; the old entry is gone unless
    it is the one just added.  Of the rooms of the transport the socket
    has left [A] and entered [B] and is otherwise where it was: it is in
    [B] and, at most, in the room of its own id besides.  In every
    reachable state a roster entry is backed by an open socket that is
    in that room under that name, so a name that no other open socket
    bears is counted in no roster but that of its socket's current
    room. *)
Theorem join_leaves_old_room_first (s : server) :
  reachable s →
  (∀ (c : connid) (k : socket) (t : Z) (payload : jsval) (A nA B u : string),
     sockets s !! c = Some k → connected k = true →
     currentRoom k = Some A → userName k = Some nA → A ∈ dom (rooms s) →
     get_prop payload "roomId" = JStr B → get_prop payload "userName" = JStr u →
     trim B ≠ "" → trim u ≠ "" →
     let '(s', out) := step s (Arrival t c (Join payload)) in
     out = [Emit (subscribers s A)
              (UserJoined (set_delete (Some nA) (participants s A)));
            Emit (subscribers s' B) (UserJoined (participants s' B))] ∧
     (nA ∉ set_delete (Some nA) (participants s A)) ∧
     u ∈ participants s' B ∧
     c ∈ subscribers s' B ∧
     (c ∈ subscribers s' A → A = B) ∧
     (∀ r', c ∈ subscribers s' r' ↔ r' = B ∨ (r' ≠ A ∧ c ∈ subscribers s r')) ∧
     (∀ r', c ∈ subscribers s' r' → r' = B ∨ r' = c) ∧
     (nA ∈ participants s' A → A = B ∧ nA = u)) ∧
  (∀ (r n : string), n ∈ participants s r →
     ∃ c k, sockets s !! c = Some k ∧ connected k = true ∧
            currentRoom k = Some r ∧ userName k = Some n) ∧
  (∀ (c : connid) (k : socket) (n r : string),
     sockets s !! c = Some k → connected k = true → userName k = Some n →
     (∀ c' k', sockets s !! c' = Some k' → connected k' = true →
               userName k' = Some n → c' = c) →
     n ∈ participants s r → currentRoom k = Some r).
Proof.
  intros Hs. pose proof (reachable_inv s Hs) as Hinv. split_and!.
  - intros c k t payload A nA B u Hk Hc HA HnA Hdom HB Hu HB' Hu'.
    pose proof (inv_sockets s Hinv c k Hk) as Hok.
    rewrite (step_open s t c k) by done.
    pose proof (on_join_valid_state s c k payload B u Hinv Hk HB Hu HB' Hu') as Hj.
    pose proof (on_join_valid s c k payload B u HB Hu HB' Hu') as Hout.
    pose proof (leave_current_effects s k (truthy_field (currentRoom k)) Hok
                  (proj1 (sock_ok_truthy k Hok))) as Hl.
    destruct (leave_current s k _) as [[s1 k1] out1]. cbv zeta in Hout.
    destruct (on_join s c k payload) as [s' out].
    destruct Hj as (Hk' & _ & Hp & _).
    injection Hout as Hs' ->. cbn [snd] in Hl.
    rewrite Hl, HA, HnA. unfold leave_effects. rewrite decide_True by done.
    rewrite <- Hs'. rewrite HA in Hk'.
    assert (Hin' : ∀ r', c ∈ subscribers s' r' ↔ r' = B ∨ (r' ≠ A ∧ r' ∈ sock_rooms k)).
    { intros r'. rewrite elem_of_subscribers, Hk'. split.
      - intros (? & [= <-] & Hin). set_solver.
      - intros Hin. eexists. split; [done |]. set_solver. }
    assert (Hin0 : ∀ r', c ∈ subscribers s r' ↔ r' ∈ sock_rooms k).
    { intros r'. rewrite elem_of_subscribers, Hk. naive_solver. }
    split_and!.
    + done.
    + rewrite elem_of_set_delete. naive_solver.
    + apply Hp. by left.
    + apply Hin'. by left.
    + intros [? | [? _]]%Hin'; done.
    + intros r'. by rewrite Hin', Hin0.
    + intros r' [? | [Hne Hin]]%Hin'; [by left |].
      destruct (ok_rooms k Hok r' Hin) as [_ [? | ?]]; [congruence | by right].
    + intros Hin. apply Hp in Hin as [? | [_ Hnot]]; [done |]. by destruct Hnot.
  - apply (inv_backed s Hinv).
  - intros c k n r Hk Hc Hn Huniq Hin.
    destruct (inv_backed s Hinv r n Hin) as (c' & k' & Hk' & Hc' & Hr' & Hn').
    assert (c' = c) as -> by eauto. congruence.
Qed.

Lemma join_leaves_old_room_first_witness :
  let s := (run init [Arrival 0 "X" Connect; Arrival 0 "Y" Connect;
                      Arrival 1 "X" (Join (join_payload "A" "Alice"));
                      Arrival 2 "Y" (Join (join_payload "A" "Bob"))]).1 in
  let '(s', out) := step s (Arrival 3 "Y" (Join (join_payload "B" "Bob"))) in
  out = [Emit {["X"; "Y"]} (UserJoined ["Alice"]);
         Emit {["Y"]} (UserJoined ["Bob"])] ∧
  ("Bob" ∉ participants s' "A") ∧ "Bob" ∈ participants s' "B" ∧
  (∀ r', "Y" ∈ subscribers s' r' → r' = "B" ∨ r' = "Y").
Proof.
  intros s.
  pose proof (join_leaves_old_room_first s
                (reachable_run init _ reachable_init)) as (Hjoin & _ & _).
  specialize (Hjoin "Y"
                (Socket true {["Y"; "A"]} (Some "A") (Some "Bob") None None)
                3 (join_payload "B" "Bob") "A" "Bob" "B" "Bob").
  destruct (step s (Arrival 3 "Y" (Join (join_payload "B" "Bob"))))
    as [s' out] eqn:Hstep.
  destruct Hjoin as (Hout & _ & Hin & _ & _ & _ & Hrooms & Hgone).
  - vm_compute. reflexivity.
  - reflexivity.
  - reflexivity.
  - reflexivity.
  - apply elem_of_dom. vm_compute. eauto.
  - reflexivity.
  - reflexivity.
  - vm_compute. discriminate.
  - vm_compute. discriminate.
  - split_and!.
    + rewrite Hout.
      replace s' with (step s (Arrival 3 "Y" (Join (join_payload "B" "Bob")))).1
        by by rewrite Hstep.
      vm_compute. reflexivity.
    + intros Hin'. by destruct (Hgone Hin').
    + done.
    + done.
Defined.

Section Debounce.
Implicit Types (s : server) (k : socket) (c : connid) (r n u : string).

Lemma get_prop_destructure p key x :
  get_prop p key = JStr x → destructure p = Some p.
Proof. by destruct p. Qed.

(** A turn of one socket leaves the state of every other socket as it
    is. *)
Lemma step_frame s a c :
  from a ≠ c → sockets (step s a).1 !! c = sockets s !! c.
Proof.
  intros Hne. unfold step.
  assert (Hset : ∀ s0 k0, sockets (set_socket s0 (from a) k0) !! c = sockets s0 !! c).
  { intros s0 k0. simpl. by rewrite lookup_insert_ne. }
  destruct (sockets s !! from a) as [k |] eqn:Hk.
  - assert (Ht : sockets (on_timeout s (at_ms a) (from a) k).1 !! c = sockets s !! c).
    { unfold on_timeout. destruct (_codeDebounceTimer k) as [tm |]; [| done].
      destruct (fires_at tm <=? at_ms a); [apply Hset | done]. }
    destruct (msg a) as [| p | p | | p | p | |]; try done;
      destruct (connected k); try done.
    + unfold on_join. destruct (join_error p); [done |].
      destruct (get_prop p "roomId"); try done.
      destruct (get_prop p "userName"); try done.
      unfold leave_current. destruct (truthy_field (currentRoom k)).
      * pose proof (safeLeaveRoom_sockets s (currentRoom k) (userName k)) as Hl.
        destruct (safeLeaveRoom s (currentRoom k) (userName k)) as [sl ol].
        simpl in *. by rewrite lookup_insert_ne, Hl.
      * apply Hset.
    + unfold on_codeChange. destruct (destructure p) as [p' |]; [| done].
      destruct (get_prop p' "roomId"); try done.
      destruct (get_prop p' "code"); try done.
      destruct (String.eqb _ ""); [done |].
      case_bool_decide; [apply Hset | done].
    + unfold on_leaveRoom, leave_current.
      destruct (truthy_field (currentRoom k) && truthy_field (userName k)).
      * pose proof (safeLeaveRoom_sockets s (currentRoom k) (userName k)) as Hl.
        destruct (safeLeaveRoom s (currentRoom k) (userName k)) as [sl ol].
        simpl in *. by rewrite lookup_insert_ne, Hl.
      * apply Hset.
    + unfold on_typing. by destruct (destructure p).
    + unfold on_languageChange. destruct (destructure p) as [p' |]; [| done].
      destruct (get_prop p' "roomId"); try done.
      by destruct (get_prop p' "language").
    + unfold on_disconnect.
      destruct (truthy_field (currentRoom (close_socket k)) &&
                truthy_field (userName (close_socket k))).
      * pose proof (safeLeaveRoom_sockets (set_socket s (from a) (close_socket k))
                      (currentRoom (close_socket k)) (userName (close_socket k))) as Hl.
        destruct (safeLeaveRoom _ _ _) as [sl ol].
        cbn [fst] in *. rewrite Hset, Hl. apply Hset.
      * cbn [fst]. by rewrite !Hset.
  - destruct (msg a); try done. apply Hset.
Qed.

Lemma caused_by_cons c a out (log : list (connid * effect)) :
  caused_by c (map (pair (from a)) out ++ log) =
  (if decide (from a = c) then out else []) ++ caused_by c log.
Proof.
  unfold caused_by. rewrite filter_app, map_app. f_equal.
  case_decide as Hd.
  - induction out as [| e out IH]; [done |]. simpl.
    rewrite filter_cons_True by done. simpl. by rewrite IH.
  - induction out as [| e out IH]; [done |]. simpl.
    by rewrite filter_cons_False by done.
Qed.



End Debounce.

(** ** Debounced edits *)



(** The scenario of the specification: three edits in 50 ms, one
    [codeUpdate] for the other socket. *)
Example three_edits_one_update :
  (run init [Arrival 0 "X" Connect; Arrival 0 "Y" Connect;
             Arrival 1 "X" (Join (join_payload "ABC123" "Alice"));
             Arrival 2 "Y" (Join (join_payload "ABC123" "Bob"));
             Arrival 10 "X" (CodeChange (code_payload "ABC123" "a"));
             Arrival 30 "X" (CodeChange (code_payload "ABC123" "ab"));
             Arrival 50 "X" (CodeChange (code_payload "ABC123" "abc"));
             Arrival 149 "X" TimerDue;
             Arrival 150 "X" TimerDue;
             Arrival 151 "X" TimerDue]).2
  = [("X", Emit {["X"]} (UserJoined ["Alice"]));
     ("Y", Emit {["X"; "Y"]} (UserJoined ["Alice"; "Bob"]));
     ("X", Emit {["Y"]} (CodeUpdate (JStr "abc")))].
Proof. vm_compute. reflexivity. Qed.

(** ** Leaving with an edit pending *)

Section Pending.
Implicit Types (s : server) (k : socket) (c : connid) (r n u : string).

(** [disconnect] clears the timer and the pending edit: the timer of
    the closed socket never runs. *)
Lemma disconnect_discards_pending_edit s c k t :
  sockets s !! c = Some k → connected k = true →
  let s' := (step s (Arrival t c Disconnect)).1 in
  (∃ k', sockets s' !! c = Some k' ∧ connected k' = false ∧
         _codeDebounceTimer k' = None ∧
         (is_Some (_codeDebounceTimer k) → _pendingCode k' = None)) ∧
  ∀ t', step s' (Arrival t' c TimerDue) = (s', []).
Proof.
  intros Hk Hc. rewrite (step_open s t c k) by done. unfold on_disconnect.
  set (k1 := match _codeDebounceTimer (close_socket k) with
             | Some _ => set_debounce (close_socket k) None None
             | None => close_socket k
             end).
  assert (Hk1 : connected k1 = false ∧ _codeDebounceTimer k1 = None ∧
                (is_Some (_codeDebounceTimer k) → _pendingCode k1 = None)).
  { subst k1. unfold close_socket. simpl.
    destruct (_codeDebounceTimer k) eqn:Htm; simpl; [done |].
    split_and!; try done; by intros [? ?]. }
  destruct (if _ && _ then _ else _) as [s1 out]. cbn [fst]. split.
  - exists k1. simpl. rewrite lookup_insert_eq. by destruct Hk1 as (? & ? & ?).
  - intros t'. unfold step. simpl. rewrite lookup_insert_eq. simpl.
    unfold on_timeout. by destruct Hk1 as (_ & -> & _).
Qed.

(** [leaveRoom] touches neither the timer nor the pending edit. *)
Lemma leaveRoom_keeps_timer s c k t :
  sockets s !! c = Some k → connected k = true →
  ∃ k', sockets (step s (Arrival t c LeaveRoom)).1 !! c = Some k' ∧
        connected k' = true ∧ currentRoom k' = None ∧
        _codeDebounceTimer k' = _codeDebounceTimer k ∧
        _pendingCode k' = _pendingCode k.
Proof.
  intros Hk Hc. rewrite (step_open s t c k) by done.
  unfold on_leaveRoom, leave_current.
  destruct (truthy_field (currentRoom k) && truthy_field (userName k)).
  - destruct (safeLeaveRoom s (currentRoom k) (userName k)) as [sl ol].
    eexists. simpl. rewrite lookup_insert_eq. split; [done |].
    by destruct (currentRoom k).
  - eexists. simpl. rewrite lookup_insert_eq. done.
Qed.

(** So the timer of a socket that left with [leaveRoom] still runs,
    and sends the pending edit to the room the edit was made in. *)
Lemma leaveRoom_then_timer_emits s c k t tm code t' :
  sockets s !! c = Some k → connected k = true →
  _codeDebounceTimer k = Some tm → _pendingCode k = Some code →
  fires_at tm ≤ t' →
  let s' := (step s (Arrival t c LeaveRoom)).1 in
  (step s' (Arrival t' c TimerDue)).2 =
  [Emit (subscribers s' (t_roomId tm) ∖ {[c]}) (CodeUpdate (JStr code))].
Proof.
  intros Hk Hc Htm Hp Hle.
  destruct (leaveRoom_keeps_timer s c k t Hk Hc) as (k' & Hk' & Hc' & _ & Htm' & Hp').
  cbv zeta. rewrite (step_open _ t' c k') by done. unfold on_timeout.
  rewrite Htm', Htm, Hp', Hp.
  destruct (Z.leb_spec (fires_at tm) t'); [done | lia].
Qed.
End Pending.

(** C2 fails on [leaveRoom].  Alice and Bob are in a room; Alice edits
    and leaves 10 ms later.  [leaveRoom] does not clear her timer as
    [disconnect] does, so at 100 ms it runs and Bob receives the edit. *)
Theorem leaveRoom_does_not_cancel_timer :
  let s := (run init [Arrival 0 "X" Connect; Arrival 0 "Y" Connect;
                      Arrival 1 "X" (Join (join_payload "ABC123" "Alice"));
                      Arrival 2 "Y" (Join (join_payload "ABC123" "Bob"))]).1 in
  (run s [Arrival 10 "X" (CodeChange (code_payload "ABC123" "abc"));
          Arrival 20 "X" LeaveRoom;
          Arrival 110 "X" TimerDue]).2
  = [("X", Emit {["X"; "Y"]} (UserJoined ["Bob"]));
     ("X", Emit {["Y"]} (CodeUpdate (JStr "abc")))] ∧
  (run s [Arrival 10 "X" (CodeChange (code_payload "ABC123" "abc"));
          Arrival 20 "X" Disconnect;
          Arrival 110 "X" TimerDue]).2
  = [("X", Emit {["Y"]} (UserJoined ["Bob"]))].
Proof. split; vm_compute; reflexivity. Qed.

(** ** Sockets that never joined *)

Section Targets.
Implicit Types (s : server) (k : socket) (c d : connid) (r n u : string).

Lemma get_prop_destructured p p' key :
  destructure p = Some p' → get_prop p' key = get_prop p key.
Proof. destruct p; simpl; by intros [= <-]. Qed.

Lemma io_to_subscribers s d v :
  d ∈ io_to s v → ∃ r, v = JStr r ∧ d ∈ subscribers s r.
Proof. destruct v; simpl; [set_solver .. | eauto | set_solver]. Qed.

Lemma safeLeaveRoom_targets s ro no e d :
  e ∈ (safeLeaveRoom s ro no).2 → d ∈ targets_of e →
  ∃ r, ro = Some r ∧ d ∈ subscribers s r.
Proof.
  rewrite safeLeaveRoom_effects. destruct ro as [r |]; [| set_solver].
  case_decide; [| set_solver]. intros ->%list_elem_of_singleton. simpl. eauto.
Qed.

Lemma leave_current_targets s k guard e d :
  e ∈ (leave_current s k guard).2 → d ∈ targets_of e →
  ∃ r, currentRoom k = Some r ∧ d ∈ subscribers s r.
Proof.
  unfold leave_current. destruct guard; [| set_solver].
  pose proof (safeLeaveRoom_targets s (currentRoom k) (userName k) e d) as H.
  by destruct (safeLeaveRoom s (currentRoom k) (userName k)).
Qed.

Lemma room_in_use_current s c k r :
  sockets s !! c = Some k → currentRoom k = Some r → room_in_use s r.
Proof. intros. exists c, k. eauto. Qed.

(** Who can receive what a turn emits: the sender its own [error], and
    the sockets in a room of the transport, before or after the turn,
    that the message names, a socket has for current room, or a timer
    has closed over. *)
Lemma step_targets s a e d :
  e ∈ (step s a).2 → d ∈ targets_of e →
  (d = from a ∧ ∃ m, e = Emit {[d]} (Error m)) ∨
  ∃ r, (d ∈ subscribers s r ∨ d ∈ subscribers (step s a).1 r) ∧
       (addresses (msg a) r ∨ room_in_use s r).
Proof.
  unfold step. destruct (sockets s !! from a) as [k |] eqn:Hk.
  - assert (Ht : e ∈ (on_timeout s (at_ms a) (from a) k).2 → d ∈ targets_of e →
                 ∃ r, d ∈ subscribers s r ∧ room_in_use s r).
    { unfold on_timeout. destruct (_codeDebounceTimer k) as [tm |] eqn:Htm; [| set_solver].
      destruct (fires_at tm <=? at_ms a); [| set_solver].
      intros ->%list_elem_of_singleton. simpl. unfold socket_to.
      intros [Hin _]%elem_of_difference. exists (t_roomId tm). split; [done |].
      exists (from a), k. eauto. }
    destruct (msg a) as [| p | p | | p | p | |] eqn:Hm;
      [destruct (connected k); set_solver
      | destruct (connected k); [| set_solver] ..
      | intros He Hd; destruct (Ht He Hd) as (r & ? & ?); right; exists r; eauto].
    + unfold on_join. destruct (join_error p) as [m |] eqn:He.
      { intros ->%list_elem_of_singleton. simpl. intros ->%elem_of_singleton.
        left. eauto. }
      apply join_error_None in He as (r & u & Hr & Hu & Hr' & Hu').
      rewrite Hr, Hu.
      pose proof (leave_current_targets s k (truthy_field (currentRoom k)) e d) as Hl.
      destruct (leave_current s k _) as [[s1 k1] out1]. cbn [fst snd] in *.
      intros [He | ->%list_elem_of_singleton]%elem_of_app Hd; right.
      * destruct (Hl He Hd) as (A & HA & Hin). exists A.
        split; [by left |]. right. by apply (room_in_use_current s (from a) k).
      * exists r. split; [by right | by left].
    + unfold on_codeChange. destruct (destructure p) as [p' |].
      * destruct (get_prop p' "roomId"); try set_solver.
        destruct (get_prop p' "code"); try set_solver.
        destruct (String.eqb _ ""); [set_solver |].
        case_bool_decide; set_solver.
      * intros ->%list_elem_of_singleton. set_solver.
    + unfold on_leaveRoom.
      pose proof (leave_current_targets s k
        (truthy_field (currentRoom k) && truthy_field (userName k)) e d) as Hl.
      destruct (leave_current s k _) as [[s1 k1] out1]. cbn [fst snd] in *.
      intros He Hd. destruct (Hl He Hd) as (A & HA & Hin). right. exists A.
      split; [by left |]. right. by apply (room_in_use_current s (from a) k).
    + unfold on_typing. destruct (destructure p) as [p' |] eqn:Hp.
      * intros ->%list_elem_of_singleton. simpl. unfold socket_to.
        intros [Hin _]%elem_of_difference.
        apply io_to_subscribers in Hin as (r & Hr & Hin). right. exists r.
        split; [by left |]. left. by rewrite <- (get_prop_destructured p p').
      * intros ->%list_elem_of_singleton. set_solver.
    + unfold on_languageChange. destruct (destructure p) as [p' |] eqn:Hp.
      * destruct (get_prop p' "roomId") as [| | | | r |] eqn:Hr; try set_solver.
        destruct (get_prop p' "language"); try set_solver.
        intros ->%list_elem_of_singleton. simpl. intros Hin. right. exists r.
        split; [by left |]. left. by rewrite <- (get_prop_destructured p p').
      * intros ->%list_elem_of_singleton. set_solver.
    + unfold on_disconnect.
      destruct (truthy_field (currentRoom (close_socket k)) &&
                truthy_field (userName (close_socket k))); [| set_solver].
      pose proof (safeLeaveRoom_targets (set_socket s (from a) (close_socket k))
                    (currentRoom (close_socket k)) (userName (close_socket k)) e d) as Hl.
      destruct (safeLeaveRoom _ _ _) as [sl ol]. cbn [fst snd] in *.
      intros He Hd. destruct (Hl He Hd) as (A & HA & Hin). simpl in HA.
      right. exists A. split; [| right; by apply (room_in_use_current s (from a) k)].
      left. apply elem_of_subscribers in Hin as (kd & Hkd & Hin). simpl in Hkd.
      apply lookup_insert_Some in Hkd as [[_ <-] | [_ Hkd]]; [set_solver |].
      apply elem_of_subscribers. eauto.
  - destruct (msg a); set_solver.
Qed.

(** A turn brings no room into use but the one its message names. *)
Lemma room_in_use_update s s' c k k' r (P : Prop) :
  sockets s !! c = Some k →
  sockets s' = <[c := k']> (sockets s) →
  (currentRoom k' = Some r → currentRoom k = Some r ∨ P) →
  (∀ tm, _codeDebounceTimer k' = Some tm →
         _codeDebounceTimer k = Some tm ∨ currentRoom k = Some (t_roomId tm)) →
  room_in_use s' r → room_in_use s r ∨ P.
Proof.
  intros Hk Hs' Hroom Htimer (d & kd & Hkd & Huse). rewrite Hs' in Hkd.
  apply lookup_insert_Some in Hkd as [[<- <-] | [_ Hkd]].
  - destruct Huse as [Hr | (tm & Htm & <-)].
    + destruct (Hroom Hr); [left; exists c, k; eauto | by right].
    + left. exists c, k. split; [done |].
      destruct (Htimer tm Htm); [right; eauto | by left].
  - left. by exists d, kd.
Qed.

Lemma room_in_use_step s a r :
  room_in_use (step s a).1 r → room_in_use s r ∨ addresses (msg a) r.
Proof.
  unfold step. destruct (sockets s !! from a) as [k |] eqn:Hk.
  - assert (Ht : room_in_use (on_timeout s (at_ms a) (from a) k).1 r →
                 room_in_use s r ∨ addresses (msg a) r).
    { unfold on_timeout. destruct (_codeDebounceTimer k) as [tm |] eqn:Htm; [| by left].
      destruct (fires_at tm <=? at_ms a); [| by left].
      intros Huse.
      refine (room_in_use_update s _ (from a) k _ r _ Hk _ _ _ Huse);
        [done | by left | done]. }
    destruct (msg a) as [| p | p | | p | p | |] eqn:Hm;
      [destruct (connected k); by left
      | destruct (connected k); [| by left] ..
      | done].
    + unfold on_join. destruct (join_error p) as [m |] eqn:He; [by left |].
      apply join_error_None in He as (r' & u & Hr & Hu & Hr' & Hu').
      unfold addresses. rewrite Hr, Hu. unfold leave_current.
      destruct (truthy_field (currentRoom k)).
      * pose proof (safeLeaveRoom_sockets s (currentRoom k) (userName k)) as Hs1.
        destruct (safeLeaveRoom s _ _) as [s1 out1]. cbn [fst snd] in *.
        intros Huse.
        refine (room_in_use_update s _ (from a) k _ r (JStr r' = JStr r) Hk _ _ _ Huse).
        -- simpl. by rewrite Hs1.
        -- simpl. intros [= ->]. by right.
        -- destruct (currentRoom k); simpl; eauto.
      * cbn [fst snd]. intros Huse.
        refine (room_in_use_update s _ (from a) k _ r (JStr r' = JStr r) Hk _ _ _ Huse).
        -- done.
        -- simpl. intros [= ->]. by right.
        -- simpl; eauto.
    + unfold on_codeChange. destruct (destructure p) as [p' |]; [| by left].
      destruct (get_prop p' "roomId") as [| | | | r' |]; try by left.
      destruct (get_prop p' "code"); try by left.
      destruct (String.eqb _ ""); [by left |].
      case_bool_decide as Hcur; [| by left]. cbn [fst]. intros Huse.
      refine (room_in_use_update s _ (from a) k _ r _ Hk _ _ _ Huse).
      * done.
      * by left.
      * simpl. intros tm [= <-]. by right.
    + unfold on_leaveRoom, leave_current.
      destruct (truthy_field (currentRoom k) && truthy_field (userName k)).
      * pose proof (safeLeaveRoom_sockets s (currentRoom k) (userName k)) as Hs1.
        destruct (safeLeaveRoom s _ _) as [s1 out1]. cbn [fst snd] in *.
        intros Huse.
        refine (room_in_use_update s _ (from a) k _ r _ Hk _ _ _ Huse).
        -- simpl. by rewrite Hs1.
        -- done.
        -- destruct (currentRoom k); simpl; eauto.
      * cbn [fst snd]. intros Huse.
        refine (room_in_use_update s _ (from a) k _ r _ Hk _ _ _ Huse).
        -- done.
        -- done.
        -- simpl; eauto.
    + unfold on_typing. destruct (destructure p); by left.
    + unfold on_languageChange. destruct (destructure p) as [p' |]; [| by left].
      destruct (get_prop p' "roomId"); try by left.
      destruct (get_prop p' "language"); by left.
    + unfold on_disconnect.
      set (k0 := close_socket k). set (s0 := set_socket s (from a) k0).
      assert (Hs1 : sockets (if truthy_field (currentRoom k0) && truthy_field (userName k0)
                      then safeLeaveRoom s0 (currentRoom k0) (userName k0)
                      else (s0, [])).1 = sockets s0).
      { destruct (_ && _); [apply safeLeaveRoom_sockets | done]. }
      destruct (if truthy_field (currentRoom k0) && truthy_field (userName k0)
                then _ else _) as [s1 out1]. cbn [fst snd] in *.
      intros Huse.
      refine (room_in_use_update s _ (from a) k _ r _ Hk _ _ _ Huse).
      * simpl. rewrite Hs1. simpl. by rewrite insert_insert_eq.
      * destruct (_codeDebounceTimer k); by left.
      * intros tm Htm. left. subst k0. simpl in Htm.
        destruct (_codeDebounceTimer k) eqn:E; simpl in Htm; congruence.
  - destruct (msg a); try by left.
    intros (d & kd & Hkd & Huse). simpl in Hkd.
    apply lookup_insert_Some in Hkd as [[_ <-] | [_ Hkd]].
    + simpl in Huse. by destruct Huse as [? | (? & ? & _)].
    + left. by exists d, kd.
Qed.
End Targets.

Section NeverJoined.
Implicit Types (s : server) (k : socket) (c d : connid) (r n u : string).

Lemma unjoined_subscribers s c r : unjoined s c → c ∈ subscribers s r → r = c.
Proof.
  intros Hu (k & Hk & Hin)%elem_of_subscribers.
  destruct (Hu k Hk) as (_ & _ & _ & _ & Hs). rewrite Hs in Hin.
  destruct (connected k); set_solver.
Qed.

(** What a turn of a socket that is in no room does. *)
Lemma unjoined_own_step s a c k :
  unjoined s c → from a = c → sockets s !! c = Some k → connected k = true →
  match msg a with
  | Join p =>
      join_error p = None ∨
      ∃ m, step s a = (s, [Emit {[c]} (Error m)])
  | CodeChange p =>
      step s a = (s, []) ∨ step s a = (s, [Uncaught TypeError])
  | Typing p =>
      (∃ p', destructure p = Some p' ∧
             step s a = (s, [Emit (socket_to s c (get_prop p' "roomId"))
                                  (UserTyping (get_prop p' "userName"))])) ∨
      step s a = (s, [Uncaught TypeError])
  | LanguageChange p =>
      (∃ p' r l, destructure p = Some p' ∧ get_prop p' "roomId" = JStr r ∧
                 get_prop p' "language" = JStr l ∧
                 step s a = (s, [Emit (subscribers s r) (LanguageUpdate l)])) ∨
      step s a = (s, []) ∨ step s a = (s, [Uncaught TypeError])
  | Connect | TimerDue => step s a = (s, [])
  | LeaveRoom => (step s a).2 = [] ∧ unjoined (step s a).1 c
  | Disconnect => (step s a).2 = [] ∧ unjoined (step s a).1 c
  end.
Proof.
  intros Hu <- Hk Hc. destruct (Hu k Hk) as (Hr & Hn & Htm & Hp & Hsub).
  destruct a as [t c m]. simpl in *. rewrite (step_open s t c k) by done.
  destruct m as [| p | p | | p | p | |]; try done.
  - unfold on_join. destruct (join_error p); eauto.
  - unfold on_codeChange. destruct (destructure p) as [p' |]; [| by right].
    left. destruct (get_prop p' "roomId"); try done.
    destruct (get_prop p' "code"); try done.
    destruct (String.eqb _ ""); [done |]. rewrite Hr.
    by rewrite bool_decide_eq_false_2.
  - unfold on_leaveRoom, leave_current. rewrite Hr, Hn. simpl. split; [done |].
    intros k'. simpl. rewrite lookup_insert_eq. intros [= <-]. by simpl.
  - unfold on_typing. destruct (destructure p) as [p' |]; [| by right].
    left. by exists p'.
  - unfold on_languageChange. destruct (destructure p) as [p' |]; [| by right; right].
    destruct (get_prop p' "roomId") as [| | | | r |] eqn:Hrm; try by (right; left).
    destruct (get_prop p' "language") as [| | | | l |] eqn:Hl; try by (right; left).
    left. by exists p', r, l.
  - unfold on_disconnect, close_socket. simpl. rewrite Hr, Hn, Htm. simpl.
    split; [done |]. intros k'. simpl. rewrite lookup_insert_eq.
    intros [= <-]. by simpl.
  - unfold on_timeout. by rewrite Htm.
Qed.

Lemma unjoined_step s a c :
  unjoined s c →
  (from a = c → ∀ p, msg a = Join p → is_Some (join_error p)) →
  unjoined (step s a).1 c ∧
  (from a = c → ∀ e, e ∈ (step s a).2 → no_roster_no_code e).
Proof.
  intros Hu Hj. destruct (decide (from a = c)) as [Heq | Hne].
  - split; [| intros _]; subst c.
    all: destruct (sockets s !! from a) as [k |] eqn:Hk.
    all: try (destruct (connected k) eqn:Hc).
    all: try (pose proof (unjoined_own_step s a (from a) k Hu eq_refl Hk Hc) as Hown).
    all: try (specialize (Hj eq_refl)).
    + destruct (msg a) as [| p | p | | p | p | |].
      * by rewrite Hown.
      * destruct Hown as [He | [m ->]]; [| done].
        destruct (Hj p eq_refl) as [? ?]. congruence.
      * by destruct Hown as [-> | ->].
      * by destruct Hown.
      * by destruct Hown as [(? & _ & ->) | ->].
      * by destruct Hown as [(? & ? & ? & _ & _ & _ & ->) | [-> | ->]].
      * by destruct Hown.
      * by rewrite Hown.
    + unfold step. rewrite Hk, Hc. destruct (Hu k Hk) as (_ & _ & Htm & _).
      unfold on_timeout. rewrite Htm. by destruct (msg a).
    + unfold step. rewrite Hk. destruct (msg a); try done.
      intros k'. simpl. rewrite lookup_insert_eq. by intros [= <-].
    + destruct (msg a) as [| p | p | | p | p | |].
      * rewrite Hown. set_solver.
      * destruct Hown as [He | [m ->]].
        { destruct (Hj p eq_refl) as [? ?]. congruence. }
        intros e ->%list_elem_of_singleton. done.
      * destruct Hown as [-> | ->]; [set_solver |].
        intros e ->%list_elem_of_singleton. done.
      * destruct Hown as [-> _]. set_solver.
      * destruct Hown as [(? & _ & ->) | ->];
          intros e ->%list_elem_of_singleton; done.
      * destruct Hown as [(? & ? & ? & _ & _ & _ & ->) | [-> | ->]];
          [| set_solver |]; intros e ->%list_elem_of_singleton; done.
      * destruct Hown as [-> _]. set_solver.
      * rewrite Hown. set_solver.
    + unfold step. rewrite Hk, Hc. destruct (Hu k Hk) as (_ & _ & Htm & _).
      unfold on_timeout. rewrite Htm. destruct (msg a); set_solver.
    + unfold step. rewrite Hk. destruct (msg a); set_solver.
  - split; [| done]. intros k. rewrite step_frame by done. apply Hu.
Qed.

Lemma never_joined_run c tr :
  ∀ s, unjoined s c → never_joins c tr →
    unjoined (run s tr).1 c ∧
    (∀ e, e ∈ caused_by c (run s tr).2 → no_roster_no_code e) ∧
    (¬ room_in_use s c → unaddressed c tr →
     ∀ d e, (d, e) ∈ (run s tr).2 → c ∈ targets_of e →
            d = c ∧ ∃ m, e = Emit {[c]} (Error m)).
Proof.
  induction tr as [| a tr IH]; intros s Hu Hnever.
  - split_and!; [done | set_solver | set_solver].
  - apply Forall_cons in Hnever as [Ha Hnever].
    destruct (unjoined_step s a c Hu Ha) as [Hu1 Hown].
    pose proof (step_targets s a) as Htg.
    pose proof (room_in_use_step s a c) as Huse.
    simpl. destruct (step s a) as [s1 out]. cbn [fst snd] in *.
    specialize (IH s1 Hu1 Hnever). destruct (run s1 tr) as [s2 log].
    cbn [fst snd] in *. destruct IH as (Hu2 & Hsrc & Hrec). split_and!.
    + done.
    + intros e. rewrite caused_by_cons. intros [Hin | Hin]%elem_of_app; [| eauto].
      case_decide; [eauto | set_solver].
    + intros Hfree [Hna Hun]%Forall_cons d e [Hin | Hin]%elem_of_app Hc.
      * apply list_elem_of_fmap in Hin as (e' & [= -> ->] & Hin).
        destruct (Htg e' c Hin Hc) as [[-> ?] | (r & Hsub & Hwhy)]; [done |].
        assert (r = c) as ->.
        { destruct Hsub as [Hsub | Hsub];
            [by apply (unjoined_subscribers s) | by apply (unjoined_subscribers s1)]. }
        by destruct Hwhy.
      * apply Hrec; try done. intros Hin1. by destruct (Huse Hin1).
Qed.

Lemma unjoined_init c : unjoined init c.
Proof. intros k Hk. unfold init in Hk. simpl in Hk. by rewrite lookup_empty in Hk. Qed.

Lemma room_in_use_init r : ¬ room_in_use init r.
Proof. intros (d & k & Hk & _). unfold init in Hk. simpl in Hk. by rewrite lookup_empty in Hk. Qed.
End NeverJoined.

(** C5, as stated, fails: a socket that never joined sends
    [languageChange] for a room, and the socket in that room receives
    [languageUpdate]. *)
Lemma outsider_broadcasts_into_room :
  ¬ (∀ (tr : list arrival) (c : connid) (e : effect),
       never_joins c tr → e ∈ caused_by c (run init tr).2 →
       targets_of e ⊆ {[c]}).
Proof.
  intros H.
  specialize (H [Arrival 0 "X" Connect; Arrival 0 "Z" Connect;
                 Arrival 1 "X" (Join (join_payload "ABC123" "Alice"));
                 Arrival 2 "Z" (LanguageChange
                                  (JObj [("roomId", JStr "ABC123");
                                         ("language", JStr "python")]))]
                "Z" (Emit {["X"]} (LanguageUpdate "python"))).
  assert (Hsub : ({["X"]} : gset string) ⊆ {["Z"]}).
  { apply H.
    - repeat first [apply List.Forall_nil | apply List.Forall_cons];
        intros Hfrom p Hmsg; first [discriminate Hfrom | discriminate Hmsg].
    - assert (caused_by "Z" (run init
        [Arrival 0 "X" Connect; Arrival 0 "Z" Connect;
         Arrival 1 "X" (Join (join_payload "ABC123" "Alice"));
         Arrival 2 "Z" (LanguageChange
                          (JObj [("roomId", JStr "ABC123");
                                 ("language", JStr "python")]))]).2
        = [Emit {["X"]} (LanguageUpdate "python")]) as ->
        by (vm_compute; reflexivity).
      left. }
  assert ("X" ∈ ({["Z"]} : gset string)) as Hin by set_solver.
  apply elem_of_singleton in Hin. discriminate.
Qed.

(** The transport keeps a socket that never joined in the room of its
    own id, so a message that names that id as a room reaches it. *)
Example unjoined_reached_by_its_id :
  (run init [Arrival 0 "X" Connect; Arrival 0 "Z" Connect;
             Arrival 1 "X" (Typing (join_payload "Z" "Alice"));
             Arrival 2 "X" (Join (join_payload "Z" "Alice"))]).2
  = [("X", Emit {["Z"]} (UserTyping (JStr "Alice")));
     ("X", Emit {["X"; "Z"]} (UserJoined ["Alice"]))].
Proof. vm_compute. reflexivity. Qed.

(** C5, amended.  A socket that never sends a valid [join] keeps its
    four fields [null]; the only room of the transport it is in is the
    one of its own id, where the transport puts every socket.  As long
    as no message names that id as a room, the only event it receives is
    the [error] answering its own rejected [join].  Its turns never emit
    [userJoined] or [codeUpdate], and a [codeChange] it sends emits
    nothing.  Its [languageChange] is relayed all the same: the guard of
    that handler looks at the types of the two fields and not at the
    room of the sender. *)
Theorem never_joined_socket (tr : list arrival) (c : connid) :
  never_joins c tr →
  let '(s, log) := run init tr in
  unjoined s c ∧
  (∀ r, c ∈ subscribers s r → r = c) ∧
  (unaddressed c tr →
   ∀ d e, (d, e) ∈ log → c ∈ targets_of e →
          d = c ∧ ∃ m, e = Emit {[c]} (Error m)) ∧
  (∀ e, e ∈ caused_by c log → no_roster_no_code e) ∧
  (∀ k, sockets s !! c = Some k → connected k = true →
     c ∈ subscribers s c ∧
     (∀ t p e, e ∈ (step s (Arrival t c (CodeChange p))).2 →
               targets_of e = ∅) ∧
     (∀ t r l,
        (step s (Arrival t c (LanguageChange
                   (JObj [("roomId", JStr r); ("language", JStr l)])))).2
        = [Emit (subscribers s r) (LanguageUpdate l)])).
Proof.
  intros Hnever.
  destruct (never_joined_run c tr init (unjoined_init c) Hnever) as (Hu & Hsrc & Hrec).
  destruct (run init tr) as [s log]. cbn [fst snd] in *.
  split_and!; try done.
  - intros r. by apply unjoined_subscribers.
  - apply Hrec, room_in_use_init.
  - intros k Hk Hc. split_and!.
    + apply elem_of_subscribers. exists k. split; [done |].
      destruct (Hu k Hk) as (_ & _ & _ & _ & ->). rewrite Hc. set_solver.
    + intros t p e.
      pose proof (unjoined_own_step s (Arrival t c (CodeChange p)) c k Hu eq_refl Hk Hc)
        as [-> | ->]; [set_solver |].
      by intros ->%list_elem_of_singleton.
    + intros t r l. by rewrite (step_open s t c k).
Qed.

Lemma never_joined_socket_witness :
  let tr := [Arrival 0 "X" Connect; Arrival 0 "Z" Connect;
             Arrival 1 "X" (Join (join_payload "ABC123" "Alice"));
             Arrival 2 "Z" (Join (join_payload "ABC123" "   "));
             Arrival 3 "Z" (CodeChange (code_payload "ABC123" "x"));
             Arrival 4 "X" (LanguageChange
                              (JObj [("roomId", JStr "ABC123");
                                     ("language", JStr "python")]))] in
  let '(s, log) := run init tr in
  unjoined s "Z" ∧
  (∀ r, "Z" ∈ subscribers s r → r = "Z") ∧
  (∀ d e, (d, e) ∈ log → "Z" ∈ targets_of e →
          d = "Z" ∧ ∃ m, e = Emit {["Z"]} (Error m)).
Proof.
  intros tr.
  pose proof (never_joined_socket tr "Z") as H.
  destruct (run init tr) as [s log].
  destruct H as (Hu & Hsub & Hrec & _).
  - repeat first [apply List.Forall_nil | apply List.Forall_cons];
      intros Hfrom p Hmsg;
      first [discriminate Hfrom | discriminate Hmsg
            | injection Hmsg as <-; vm_compute; eauto].
  - split_and!; [done | done |]. apply Hrec.
    repeat first [apply List.Forall_nil | apply List.Forall_cons];
      intros Hn; vm_compute in Hn; first [contradiction | discriminate].
Defined.

(** ** Malformed payloads *)

Section Malformed.
Implicit Types (s : server) (k : socket) (c d : connid) (r n u : string).

(** [codeChange] drops a payload without a string [roomId] or a string
    [code], unless the payload is [null]. *)
Lemma codeChange_malformed_dropped s c k t p :
  sockets s !! c = Some k → connected k = true → p ≠ JNull →
  lacks_string p "roomId" ∨ lacks_string p "code" →
  step s (Arrival t c (CodeChange p)) = (s, []).
Proof.
  intros Hk Hc Hnull Hbad. rewrite (step_open s t c k) by done.
  unfold on_codeChange.
  destruct (destructure p) as [p' |] eqn:Hd; [| by destruct p].
  rewrite !(get_prop_destructured p p') by done.
  destruct (get_prop p "roomId") as [| | | | r |] eqn:Hr; try done.
  destruct (get_prop p "code") as [| | | | x |] eqn:Hx; try done.
  destruct Hbad as [Hbad | Hbad]; [by destruct (Hbad r) | by destruct (Hbad x)].
Qed.

(** So does [languageChange]. *)
Lemma languageChange_malformed_dropped s c k t p :
  sockets s !! c = Some k → connected k = true → p ≠ JNull →
  lacks_string p "roomId" ∨ lacks_string p "language" →
  step s (Arrival t c (LanguageChange p)) = (s, []).
Proof.
  intros Hk Hc Hnull Hbad. rewrite (step_open s t c k) by done.
  unfold on_languageChange.
  destruct (destructure p) as [p' |] eqn:Hd; [| by destruct p].
  rewrite !(get_prop_destructured p p') by done.
  destruct (get_prop p "roomId") as [| | | | r |] eqn:Hr; try done.
  destruct (get_prop p "language") as [| | | | x |] eqn:Hx; try done.
  destruct Hbad as [Hbad | Hbad]; [by destruct (Hbad r) | by destruct (Hbad x)].
Qed.

(** [typing] has no guard: whatever is under [userName] goes to the
    other sockets of whatever room is under [roomId]. *)
Lemma typing_relays_anything s c k t p :
  sockets s !! c = Some k → connected k = true → p ≠ JNull →
  step s (Arrival t c (Typing p)) =
  (s, [Emit (socket_to s c (get_prop p "roomId"))
            (UserTyping (get_prop p "userName"))]).
Proof.
  intros Hk Hc Hnull. rewrite (step_open s t c k) by done. unfold on_typing.
  destruct (destructure p) as [p' |] eqn:Hd; [| by destruct p].
  by rewrite !(get_prop_destructured p p').
Qed.

(** A [null] payload cannot be destructured: the exception is thrown
    while the parameters are bound, outside the handler's [try]. *)
Lemma null_payload_throws s c k t :
  sockets s !! c = Some k → connected k = true →
  step s (Arrival t c (CodeChange JNull)) = (s, [Uncaught TypeError]) ∧
  step s (Arrival t c (Typing JNull)) = (s, [Uncaught TypeError]) ∧
  step s (Arrival t c (LanguageChange JNull)) = (s, [Uncaught TypeError]).
Proof. intros Hk Hc. by rewrite !(step_open s t c k). Qed.
End Malformed.

(** C6 fails on [typing].  Alice and Bob are in a room; Alice sends
    [typing] without a [userName], then with a number for it: each time
    Bob receives [userTyping], with [undefined] and with the number.  The
    same payloads are dropped by [codeChange] and [languageChange]. *)
Theorem typing_relays_malformed_payload :
  let s := (run init [Arrival 0 "X" Connect; Arrival 0 "Y" Connect;
                      Arrival 1 "X" (Join (join_payload "ABC123" "Alice"));
                      Arrival 2 "Y" (Join (join_payload "ABC123" "Bob"))]).1 in
  let no_name := JObj [("roomId", JStr "ABC123")] in
  let bad_name := JObj [("roomId", JStr "ABC123"); ("userName", JNum 42)] in
  lacks_string no_name "userName" ∧ lacks_string bad_name "userName" ∧
  step s (Arrival 3 "X" (Typing no_name))
  = (s, [Emit {["Y"]} (UserTyping JUndefined)]) ∧
  step s (Arrival 3 "X" (Typing bad_name))
  = (s, [Emit {["Y"]} (UserTyping (JNum 42))]) ∧
  step s (Arrival 3 "X" (CodeChange no_name)) = (s, []) ∧
  step s (Arrival 3 "X" (LanguageChange no_name)) = (s, []).
Proof.
  split_and!; try (vm_compute; reflexivity); intros x; discriminate.
Qed.

(** * More about the server *)

Section Emitted.
Implicit Types (s : server) (k : socket) (c d : connid) (r n u : string).

Lemma rooms_ok_NoDup s r : rooms_ok s → NoDup (participants s r).
Proof.
  intros Hok. unfold participants.
  destruct (rooms s !! r) as [l |] eqn:Hl; simpl; [| apply NoDup_nil_2].
  by apply (Hok r l).
Qed.

(** What one turn can emit, event by event. *)
Lemma step_emits s a e :
  inv s → e ∈ (step s a).2 →
  match e with
  | Emit _ (UserJoined us) => NoDup us
  | Emit _ (CodeUpdate v) => ∃ x, v = JStr x
  | _ => True
  end.
Proof.
  intros Hinv. pose proof (inv_step s a Hinv) as Hinv'. revert Hinv'.
  assert (Hleave : ∀ s0 ro no, rooms_ok s0 → e ∈ (safeLeaveRoom s0 ro no).2 →
            match e with
            | Emit _ (UserJoined us) => NoDup us
            | Emit _ (CodeUpdate v) => ∃ x, v = JStr x
            | _ => True
            end).
  { intros s0 ro no Hok. rewrite safeLeaveRoom_effects.
    destruct ro as [r |]; [| set_solver]. case_decide; [| set_solver].
    intros ->%list_elem_of_singleton.
    by apply rooms_ok_NoDup, safeLeaveRoom_rooms_ok. }
  unfold step. destruct (sockets s !! from a) as [k |] eqn:Hk.
  - assert (Ht : e ∈ (on_timeout s (at_ms a) (from a) k).2 →
              match e with
              | Emit _ (UserJoined us) => NoDup us
              | Emit _ (CodeUpdate v) => ∃ x, v = JStr x
              | _ => True
              end).
    { unfold on_timeout. destruct (_codeDebounceTimer k) as [tm |] eqn:Htm; [| set_solver].
      destruct (fires_at tm <=? at_ms a); [| set_solver].
      intros ->%list_elem_of_singleton.
      destruct (ok_pending k (inv_sockets s Hinv _ k Hk)) as [x Hx]; [by rewrite Htm |].
      rewrite Hx. by exists x. }
    destruct (msg a) as [| p | p | | p | p | |];
      [destruct (connected k); set_solver
      | destruct (connected k); [| set_solver] ..
      | by intros _].
    + unfold on_join. destruct (join_error p) as [m |] eqn:He.
      { by intros _ ->%list_elem_of_singleton. }
      apply join_error_None in He as (r & u & Hr & Hu & Hr' & Hu'). rewrite Hr, Hu.
      unfold leave_current.
      destruct (truthy_field (currentRoom k)).
      * pose proof (Hleave s (currentRoom k) (userName k) (inv_rooms s Hinv)) as Hl.
        destruct (safeLeaveRoom s (currentRoom k) (userName k)) as [sl ol].
        cbv beta iota zeta. cbn [fst snd] in *.
        intros Hinv' [? | ->%list_elem_of_singleton]%elem_of_app; [by apply Hl |].
        apply rooms_ok_NoDup, Hinv'.
      * cbv beta iota zeta. cbn [fst snd].
        intros Hinv' [? | ->%list_elem_of_singleton]%elem_of_app;
          [set_solver |].
        apply rooms_ok_NoDup, Hinv'.
    + unfold on_codeChange. destruct (destructure p) as [p' |].
      * destruct (get_prop p' "roomId"); try set_solver.
        destruct (get_prop p' "code"); try set_solver.
        destruct (String.eqb _ ""); [set_solver |].
        case_bool_decide; set_solver.
      * by intros _ ->%list_elem_of_singleton.
    + unfold on_leaveRoom, leave_current.
      destruct (truthy_field (currentRoom k) && truthy_field (userName k)); [| set_solver].
      pose proof (Hleave s (currentRoom k) (userName k) (inv_rooms s Hinv)) as Hl.
      destruct (safeLeaveRoom s (currentRoom k) (userName k)) as [sl ol].
      cbv beta iota zeta. cbn [fst snd] in *. intros _. apply Hl.
    + unfold on_typing. destruct (destructure p) as [p' |];
        by intros _ ->%list_elem_of_singleton.
    + unfold on_languageChange. destruct (destructure p) as [p' |].
      * destruct (get_prop p' "roomId"); try set_solver.
        destruct (get_prop p' "language"); set_solver.
      * by intros _ ->%list_elem_of_singleton.
    + unfold on_disconnect.
      destruct (truthy_field (currentRoom (close_socket k)) &&
                truthy_field (userName (close_socket k))); [| set_solver].
      pose proof (Hleave (set_socket s (from a) (close_socket k))
                    (currentRoom (close_socket k)) (userName (close_socket k))
                    (inv_rooms s Hinv)) as Hl.
      destruct (safeLeaveRoom _ _ _) as [sl ol]. cbn [fst snd] in *.
      intros _. apply Hl.
  - destruct (msg a); set_solver.
Qed.

Lemma run_emits s tr :
  inv s →
  Forall (λ p : connid * effect,
            match p.2 with
            | Emit _ (UserJoined us) => NoDup us
            | Emit _ (CodeUpdate v) => ∃ x, v = JStr x
            | _ => True
            end) (run s tr).2.
Proof.
  revert s. induction tr as [| a tr IH]; intros s Hinv; [by constructor |].
  simpl. pose proof (step_emits s a) as He. pose proof (inv_step s a Hinv) as Hinv'.
  destruct (step s a) as [s1 out]. cbn [fst snd] in *.
  specialize (IH s1 Hinv'). destruct (run s1 tr) as [s2 log]. cbn [fst snd] in *.
  apply Forall_app. split; [| done].
  apply Forall_fmap, Forall_forall. intros e Hin. by apply He.
Qed.
End Emitted.

(** X1. Whatever the sockets send, every [codeUpdate] the server emits
    carries a string: the timer callback never sends the [null] that
    [_pendingCode] holds between edits. *)
Theorem codeUpdate_carries_string (tr : list arrival) :
  Forall (λ p : connid * effect,
            ∀ tg v, p.2 = Emit tg (CodeUpdate v) → ∃ x, v = JStr x)
         (run init tr).2.
Proof.
  eapply Forall_impl; [apply (run_emits init tr inv_init) |].
  intros [d e] H tg v Heq. simpl in *. by subst e.
Qed.

(** X2. Whatever the sockets send, no roster the server broadcasts in a
    [userJoined] lists a name twice. *)
Theorem roster_broadcast_has_no_duplicate (tr : list arrival) :
  Forall (λ p : connid * effect,
            ∀ tg us, p.2 = Emit tg (UserJoined us) → NoDup us)
         (run init tr).2.
Proof.
  eapply Forall_impl; [apply (run_emits init tr inv_init) |].
  intros [d e] H tg us Heq. simpl in *. by subst e.
Qed.

(** X3. A valid [join] ends with one [userJoined] whose roster lists the
    new name.  It goes to every open socket whose room is now the joined
    room, the joining socket among them; whom it reaches is in that
    room, or is the socket that has the room's name for id. *)
Theorem join_broadcast_reaches_room
  (s : server) (c : connid) (k : socket) (t : Z) (payload : jsval)
  (r u : string) :
  reachable s → sockets s !! c = Some k → connected k = true →
  get_prop payload "roomId" = JStr r → get_prop payload "userName" = JStr u →
  trim r ≠ "" → trim u ≠ "" →
  let '(s', out) := step s (Arrival t c (Join payload)) in
  let in_room (d : connid) :=
    ∃ kd, sockets s' !! d = Some kd ∧ connected kd = true ∧
          currentRoom kd = Some r in
  ∃ out0 tg us,
    out = out0 ++ [Emit tg (UserJoined us)] ∧
    us = participants s' r ∧ u ∈ us ∧ c ∈ tg ∧
    (∀ d, in_room d → d ∈ tg) ∧
    (∀ d, d ∈ tg → in_room d ∨ d = r) ∧
    (r ∉ dom (sockets s') → ∀ d, d ∈ tg ↔ in_room d).
Proof.
  intros Hs Hk Hc Hr Hu Hr' Hu'.
  pose proof (reachable_step s (Arrival t c (Join payload)) Hs) as Hs'.
  rewrite (step_open s t c k) in * by done.
  pose proof (on_join_valid_state s c k payload r u
                (reachable_inv s Hs) Hk Hr Hu Hr' Hu') as Hj.
  destruct (on_join s c k payload) as [s' out]. cbn [fst] in Hs'.
  destruct Hj as (Hk' & _ & Hp & out0 & ->).
  destruct (subscribers_spec s' r Hs') as (Hin & Hout & Hiff).
  exists out0, (subscribers s' r), (participants s' r). split_and!; try done.
  - apply Hp. by left.
  - apply Hin. eexists. split; [apply Hk' |]. by simpl.
Qed.

Lemma join_broadcast_reaches_room_witness :
  let s := (run init [Arrival 0 "X" Connect; Arrival 0 "Y" Connect;
                      Arrival 1 "X" (Join (join_payload "ABC123" "Alice"))]).1 in
  let '(s', out) := step s (Arrival 2 "Y" (Join (join_payload "ABC123" "Bob"))) in
  let in_room (d : connid) :=
    ∃ kd, sockets s' !! d = Some kd ∧ connected kd = true ∧
          currentRoom kd = Some "ABC123" in
  ∃ out0 tg us,
    out = out0 ++ [Emit tg (UserJoined us)] ∧
    us = participants s' "ABC123" ∧ "Bob" ∈ us ∧ "Y" ∈ tg ∧
    (∀ d, in_room d → d ∈ tg) ∧
    (∀ d, d ∈ tg → in_room d ∨ d = "ABC123") ∧
    ("ABC123" ∉ dom (sockets s') → ∀ d, d ∈ tg ↔ in_room d).
Proof.
  intros s.
  apply (join_broadcast_reaches_room s "Y" (new_socket "Y") 2
           (join_payload "ABC123" "Bob") "ABC123" "Bob").
  - apply reachable_run, reachable_init.
  - vm_compute. reflexivity.
  - reflexivity.
  - reflexivity.
  - reflexivity.
  - vm_compute. discriminate.
  - vm_compute. discriminate.
Defined.

(** X4. Once a socket has sent [leaveRoom], the server drops every
    [codeChange] it sends, for whatever room, until it joins again: the
    state stays as it is and nothing is emitted. *)
Theorem codeChange_after_leave_dropped
  (s : server) (c : connid) (k : socket) (t t' : Z) (payload : jsval) :
  sockets s !! c = Some k → connected k = true → payload ≠ JNull →
  let s1 := (step s (Arrival t c LeaveRoom)).1 in
  step s1 (Arrival t' c (CodeChange payload)) = (s1, []).
Proof.
  intros Hk Hc Hnull.
  destruct (leaveRoom_keeps_timer s c k t Hk Hc) as (k' & Hk' & Hc' & Hroom & _).
  cbv zeta. rewrite (step_open _ t' c k') by done. unfold on_codeChange.
  destruct (destructure payload) as [p |] eqn:Hd; [| by destruct payload].
  destruct (get_prop p "roomId"); try done.
  destruct (get_prop p "code"); try done.
  destruct (String.eqb _ ""); [done |].
  rewrite Hroom. by rewrite bool_decide_eq_false_2.
Qed.

Lemma codeChange_after_leave_dropped_witness :
  let s := (run init [Arrival 0 "X" Connect;
                      Arrival 1 "X" (Join (join_payload "ABC123" "Alice"))]).1 in
  let s1 := (step s (Arrival 2 "X" LeaveRoom)).1 in
  step s1 (Arrival 3 "X" (CodeChange (code_payload "ABC123" "late"))) = (s1, []).
Proof.
  intros s.
  apply (codeChange_after_leave_dropped s "X"
           (Socket true {["X"; "ABC123"]} (Some "ABC123") (Some "Alice") None None)
           2 3 (code_payload "ABC123" "late")).
  - vm_compute. reflexivity.
  - reflexivity.
  - discriminate.
Defined.

(** X5. Rosters are keyed by name: when one of two open sockets that are
    in a room under the same name sends [leaveRoom], the name leaves the
    roster, while the other socket is still in the room under it. *)
Theorem shared_name_leaves_with_one_socket
  (s : server) (c d : connid) (k kd : socket) (A n : string) (t : Z) :
  reachable s → c ≠ d →
  sockets s !! c = Some k → connected k = true →
  currentRoom k = Some A → userName k = Some n →
  sockets s !! d = Some kd → connected kd = true →
  currentRoom kd = Some A → userName kd = Some n →
  let s' := (step s (Arrival t c LeaveRoom)).1 in
  (n ∉ participants s' A) ∧ sockets s' !! d = Some kd ∧ d ∈ subscribers s' A.
Proof.
  intros Hs Hne Hk Hc HA Hn Hkd Hcd HAd Hnd.
  pose proof (reachable_step s (Arrival t c LeaveRoom) Hs) as Hs'.
  assert (Hfr : sockets (step s (Arrival t c LeaveRoom)).1 !! d = Some kd).
  { by rewrite step_frame. }
  cbv zeta. split_and!; [| done |].
  - rewrite (step_open s t c k) by done.
    rewrite on_leaveRoom_participants
      by (by apply (inv_sockets s (reachable_inv s Hs) c)).
    intros [_ Hnot]. by apply Hnot.
  - by apply (in_room_subscribers _ d kd A).
Qed.

Lemma shared_name_leaves_with_one_socket_witness :
  let s := (run init [Arrival 0 "X" Connect; Arrival 0 "Y" Connect;
                      Arrival 1 "X" (Join (join_payload "ABC123" "Bob"));
                      Arrival 2 "Y" (Join (join_payload "ABC123" "Bob"))]).1 in
  let kd := Socket true {["Y"; "ABC123"]} (Some "ABC123") (Some "Bob") None None in
  let s' := (step s (Arrival 3 "X" LeaveRoom)).1 in
  ("Bob" ∉ participants s' "ABC123") ∧ sockets s' !! "Y" = Some kd ∧
  "Y" ∈ subscribers s' "ABC123".
Proof.
  intros s kd.
  apply (shared_name_leaves_with_one_socket s "X" "Y"
           (Socket true {["X"; "ABC123"]} (Some "ABC123") (Some "Bob") None None)
           kd "ABC123" "Bob" 3).
  - apply reachable_run, reachable_init.
  - discriminate.
  - vm_compute. reflexivity.
  - reflexivity.
  - reflexivity.
  - reflexivity.
  - vm_compute. reflexivity.
  - reflexivity.
  - reflexivity.
  - reflexivity.
Defined.

(** X6. A [languageChange] with a string [roomId] and a string
    [language], sent by a socket that is in that room, changes nothing
    in the server and is answered by one [languageUpdate].  It goes to
    every open socket whose room is that room, the sender included;
    whom it reaches is in that room, or is the socket that has the
    room's name for id. *)
Theorem languageChange_reaches_sender_too
  (s : server) (c : connid) (k : socket) (t : Z) (payload : jsval)
  (R l : string) :
  reachable s → sockets s !! c = Some k → connected k = true →
  currentRoom k = Some R →
  get_prop payload "roomId" = JStr R → get_prop payload "language" = JStr l →
  let in_room (d : connid) :=
    ∃ kd, sockets s !! d = Some kd ∧ connected kd = true ∧
          currentRoom kd = Some R in
  ∃ tg, step s (Arrival t c (LanguageChange payload))
        = (s, [Emit tg (LanguageUpdate l)]) ∧
        c ∈ tg ∧
        (∀ d, in_room d → d ∈ tg) ∧
        (∀ d, d ∈ tg → in_room d ∨ d = R) ∧
        (R ∉ dom (sockets s) → ∀ d, d ∈ tg ↔ in_room d).
Proof.
  intros Hs Hk Hc HR Hroom Hl in_room.
  destruct (subscribers_spec s R Hs) as (Hin & Hout & Hiff).
  exists (subscribers s R). split_and!; try done.
  - rewrite (step_open s t c k) by done. unfold on_languageChange.
    rewrite (get_prop_destructure payload _ _ Hroom). by rewrite Hroom, Hl.
  - apply Hin. by exists k.
Qed.

Lemma languageChange_reaches_sender_too_witness :
  let s := (run init [Arrival 0 "X" Connect; Arrival 0 "Y" Connect;
                      Arrival 1 "X" (Join (join_payload "ABC123" "Alice"));
                      Arrival 2 "Y" (Join (join_payload "ABC123" "Bob"))]).1 in
  let in_room (d : connid) :=
    ∃ kd, sockets s !! d = Some kd ∧ connected kd = true ∧
          currentRoom kd = Some "ABC123" in
  ∃ tg, step s (Arrival 3 "X" (LanguageChange (language_payload "ABC123" "python")))
        = (s, [Emit tg (LanguageUpdate "python")]) ∧
        "X" ∈ tg ∧
        (∀ d, in_room d → d ∈ tg) ∧
        (∀ d, d ∈ tg → in_room d ∨ d = "ABC123") ∧
        ("ABC123" ∉ dom (sockets s) → ∀ d, d ∈ tg ↔ in_room d).
Proof.
  intros s.
  apply (languageChange_reaches_sender_too s "X"
           (Socket true {["X"; "ABC123"]} (Some "ABC123") (Some "Alice") None None)
           3 (language_payload "ABC123" "python") "ABC123" "python").
  - apply reachable_run, reachable_init.
  - vm_compute. reflexivity.
  - reflexivity.
  - reflexivity.
  - reflexivity.
  - reflexivity.
Defined.



(** X8. In every reachable state [socket.join] and [socket.leave] have
    kept the transport in step with [socket.data]: of the rooms other
    than the one of its own id, where the transport puts it, a socket is
    in room [r] exactly when it is open and its [currentRoom] is [r], so
    it is in one such room at most; an open socket is in the room of its
    [currentRoom], and a closed socket is in no room. *)
Theorem transport_room_is_currentRoom
  (s : server) (c : connid) (k : socket) (r : string) :
  reachable s → sockets s !! c = Some k →
  (r ≠ c → (r ∈ sock_rooms k ↔ connected k = true ∧ currentRoom k = Some r)) ∧
  (r ∈ sock_rooms k → connected k = true) ∧
  (connected k = true → currentRoom k = Some r → r ∈ sock_rooms k) ∧
  (∀ r', r ∈ sock_rooms k → r' ∈ sock_rooms k → r ≠ c → r' ≠ c → r = r').
Proof.
  intros Hs Hk.
  pose proof (inv_sockets s (reachable_inv s Hs) c k Hk) as Hok.
  split_and!.
  - intros Hne. split.
    + intros Hin. destruct (ok_rooms k Hok r Hin) as [? [? | ?]]; done.
    + intros [? ?]. by apply (ok_joined k Hok).
  - intros Hin. by destruct (ok_rooms k Hok r Hin).
  - intros Hc. by apply (ok_joined k Hok).
  - intros r' Hin Hin' Hne Hne'.
    destruct (ok_rooms k Hok r Hin) as [_ [? | ?]]; [| done].
    destruct (ok_rooms k Hok r' Hin') as [_ [? | ?]]; [| done].
    congruence.
Qed.

Lemma transport_room_is_currentRoom_witness :
  let s := (run init [Arrival 0 "X" Connect;
                      Arrival 1 "X" (Join (join_payload "A" "Alice"));
                      Arrival 2 "X" (Join (join_payload "B" "Alice"))]).1 in
  let k := Socket true {["X"; "B"]} (Some "B") (Some "Alice") None None in
  ("B" ≠ "X" → ("B" ∈ sock_rooms k ↔ connected k = true ∧ currentRoom k = Some "B")) ∧
  ("B" ∈ sock_rooms k → connected k = true) ∧
  (connected k = true → currentRoom k = Some "B" → "B" ∈ sock_rooms k) ∧
  (∀ r', "B" ∈ sock_rooms k → r' ∈ sock_rooms k → "B" ≠ "X" → r' ≠ "X" → "B" = r').
Proof.
  intros s k. apply (transport_room_is_currentRoom s "X" k "B").
  - apply reachable_run, reachable_init.
  - vm_compute. reflexivity.
Defined.

(** X9. The directory holds no room without a member: in every
    reachable state each room of the directory is the [currentRoom] of
    an open socket, and once every socket is closed the directory is
    empty. *)
Theorem directory_rooms_have_open_member (s : server) :
  reachable s →
  (∀ r, r ∈ dom (rooms s) →
     ∃ c k, sockets s !! c = Some k ∧ connected k = true ∧
            currentRoom k = Some r) ∧
  ((∀ c k, sockets s !! c = Some k → connected k = false) → rooms s = ∅).
Proof.
  intros Hs. pose proof (reachable_inv s Hs) as Hinv.
  assert (Hmem : ∀ r, r ∈ dom (rooms s) →
            ∃ c k, sockets s !! c = Some k ∧ connected k = true ∧
                   currentRoom k = Some r).
  { intros r Hr. apply elem_of_dom in Hr.
    apply (rooms_ok_participants s r (inv_rooms s Hinv)) in Hr.
    destruct (participants s r) as [| n l] eqn:Hp; [done |].
    destruct (inv_backed s Hinv r n) as (c & k & ? & ? & ? & _).
    { rewrite Hp. left. }
    by exists c, k. }
  split; [done |]. intros Hclosed. apply map_empty. intros r.
  destruct (rooms s !! r) as [l |] eqn:Hl; [| done]. exfalso.
  destruct (Hmem r) as (c & k & Hk & Hc & _); [apply elem_of_dom; eauto |].
  rewrite (Hclosed c k Hk) in Hc. discriminate.
Qed.

Lemma directory_rooms_have_open_member_witness :
  let s := (run init [Arrival 0 "X" Connect; Arrival 0 "Y" Connect;
                      Arrival 1 "X" (Join (join_payload "A" "Alice"));
                      Arrival 2 "Y" (Join (join_payload "B" "Bob"));
                      Arrival 3 "X" Disconnect;
                      Arrival 4 "Y" Disconnect]).1 in
  rooms s = ∅.
Proof.
  intros s.
  apply (directory_rooms_have_open_member s).
  - apply reachable_run, reachable_init.
  - intros c k Hk.
    assert (Hsock : sockets s =
              {[ "X" := Socket false ∅ (Some "A") (Some "Alice") None None;
                 "Y" := Socket false ∅ (Some "B") (Some "Bob") None None ]})
      by (vm_compute; reflexivity).
    rewrite Hsock in Hk.
    apply lookup_insert_Some in Hk as [[_ <-] | [_ Hk]]; [done |].
    apply lookup_singleton_Some in Hk as [_ <-]. done.
Defined.

Section Closed.
Implicit Types (s : server) (k : socket) (c d : connid).

Lemma closed_step s a c k :
  sockets s !! c = Some k → connected k = false → _codeDebounceTimer k = None →
  sockets (step s a).1 !! c = Some k ∧ (from a = c → (step s a).2 = []).
Proof.
  intros Hk Hc Htm. destruct (decide (from a = c)) as [Heq | Hne].
  - assert (Hstep : step s a = (s, [])).
    { unfold step. rewrite Heq, Hk, Hc. unfold on_timeout. rewrite Htm.
      by destruct (msg a). }
    rewrite Hstep. done.
  - split; [| done]. by rewrite step_frame.
Qed.

Lemma closed_run s tr c k :
  sockets s !! c = Some k → connected k = false → _codeDebounceTimer k = None →
  sockets (run s tr).1 !! c = Some k ∧ caused_by c (run s tr).2 = [].
Proof.
  revert s. induction tr as [| a tr IH]; intros s Hk Hc Htm; [done |].
  destruct (closed_step s a c k Hk Hc Htm) as [Hk1 Hout].
  simpl. destruct (step s a) as [s1 out]. cbn [fst snd] in *.
  specialize (IH s1 Hk1 Hc Htm). destruct (run s1 tr) as [s2 log].
  cbn [fst snd] in *. destruct IH as [? Hlog]. split; [done |].
  rewrite caused_by_cons, Hlog. case_decide; [| done]. by rewrite Hout.
Qed.
End Closed.

(** X10. A socket that has disconnected is never again the source of an
    event: its timer was cleared or was never armed, so whatever follows,
    no turn of this socket emits anything and its record stays as
    [disconnect] left it. *)
Theorem closed_socket_stays_silent
  (s : server) (c : connid) (k : socket) (tr : list arrival) :
  reachable s → sockets s !! c = Some k → connected k = false →
  caused_by c (run s tr).2 = [] ∧ sockets (run s tr).1 !! c = Some k.
Proof.
  intros Hs Hk Hc.
  pose proof (ok_timer k (inv_sockets s (reachable_inv s Hs) c k Hk) Hc) as Htm.
  destruct (closed_run s tr c k Hk Hc Htm). done.
Qed.

Lemma closed_socket_stays_silent_witness :
  let s := (run init [Arrival 0 "X" Connect; Arrival 0 "Y" Connect;
                      Arrival 1 "X" (Join (join_payload "ABC123" "Alice"));
                      Arrival 2 "Y" (Join (join_payload "ABC123" "Bob"));
                      Arrival 3 "X" (CodeChange (code_payload "ABC123" "abc"));
                      Arrival 4 "X" Disconnect]).1 in
  let k := Socket false ∅ (Some "ABC123") (Some "Alice") None None in
  let tr := [Arrival 5 "X" (Join (join_payload "ABC123" "Alice"));
             Arrival 103 "X" TimerDue;
             Arrival 104 "X" (CodeChange (code_payload "ABC123" "x"))] in
  caused_by "X" (run s tr).2 = [] ∧ sockets (run s tr).1 !! "X" = Some k.
Proof.
  intros s k tr. apply (closed_socket_stays_silent s "X" k tr).
  - apply reachable_run, reachable_init.
  - vm_compute. reflexivity.
  - reflexivity.
Defined.

(** * The client *)

Section Hash.
Implicit Types (h : Z) (name : string).

Lemma toInt32_mod z : toInt32 z mod 2 ^ 32 = z mod 2 ^ 32.
Proof.
  unfold toInt32.
  rewrite <- Zminus_mod_idemp_l, Z.mod_mod by lia.
  rewrite Zminus_mod_idemp_l. f_equal. lia.
Qed.

Lemma toInt32_range z : - 2 ^ 31 ≤ toInt32 z < 2 ^ 31.
Proof.
  unfold toInt32. pose proof (Z.mod_pos_bound (z + 2 ^ 31) (2 ^ 32)). lia.
Qed.

Lemma shl5_mod h : shl h 5 mod 2 ^ 32 = (32 * h) mod 2 ^ 32.
Proof.
  unfold shl. rewrite toInt32_mod, Z.shiftl_mul_pow2 by lia.
  rewrite <- Zmult_mod_idemp_l, toInt32_mod, Zmult_mod_idemp_l. f_equal. lia.
Qed.

Lemma charCode_range (a : ascii) : 0 ≤ charCode a < 256.
Proof.
  unfold charCode. pose proof (N_ascii_bounded a). lia.
Qed.

Lemma hash_loop_congruent name :
  ∀ h h', h mod 2 ^ 32 = h' mod 2 ^ 32 →
    hash_loop h name mod 2 ^ 32 = poly31 h' name mod 2 ^ 32.
Proof.
  induction name as [| a rest IH]; intros h h' Heq; [done |].
  simpl. apply IH.
  rewrite Zplus_mod, Zminus_mod, shl5_mod, <- Zminus_mod, <- Zplus_mod.
  replace (charCode a + (32 * h - h)) with (31 * h + charCode a) by lia.
  rewrite Zplus_mod, Zmult_mod, Heq, <- Zmult_mod, <- Zplus_mod. done.
Qed.

Lemma hash_loop_app name1 name2 h :
  hash_loop h (name1 ++ name2)%string = hash_loop (hash_loop h name1) name2.
Proof. revert h. induction name1 as [| a rest IH]; intros h; [done | apply IH]. Qed.

Lemma string_length_app (s1 s2 : string) :
  String.length (s1 ++ s2)%string = (String.length s1 + String.length s2)%nat.
Proof. induction s1 as [| a s1 IH]; simpl; [done | by rewrite IH]. Qed.

Lemma hash_loop_bound name h :
  Z.abs (hash_loop h name) ≤ Z.abs h + Z.of_nat (String.length name) * (2 ^ 31 + 255).
Proof.
  revert h. induction name as [| a rest IH]; intros h; [simpl; lia |].
  cbn [hash_loop String.length]. etrans; [apply IH |].
  pose proof (toInt32_range (Z.shiftl (toInt32 h) 5)).
  pose proof (charCode_range a). unfold shl. lia.
Qed.
End Hash.

(** X11. The hash of [generateColor] is, modulo [2^32], the polynomial
    hash in base 31 of the name's code units: the [(hash << 5) - hash]
    of the loop is a multiplication by 31 up to the wrap-around of
    [<<]. *)
Theorem generateColor_hash_is_base31 (name : string) :
  hash_loop 0 name mod 2 ^ 32 = poly31 0 name mod 2 ^ 32.
Proof. by apply hash_loop_congruent. Qed.

(** X12. For a name of at most [2^21] characters every value the loop of
    [generateColor] goes through (the hash after each character, and
    the [hash << 5] and the difference computed from it) is an integer
    below [2^53] in absolute value, so the doubles of JavaScript hold
    it exactly. *)
Theorem hash_loop_exact (name pre post : string) :
  Z.of_nat (String.length name) ≤ 2 ^ 21 → name = (pre ++ post)%string →
  let hash := hash_loop 0 pre in
  Z.abs hash < 2 ^ 53 ∧ Z.abs (shl hash 5) < 2 ^ 53 ∧
  Z.abs (shl hash 5 - hash) < 2 ^ 53.
Proof.
  intros Hlen ->. cbv zeta.
  pose proof (hash_loop_bound pre 0) as Hb.
  pose proof (toInt32_range (Z.shiftl (toInt32 (hash_loop 0 pre)) 5)) as Hs.
  rewrite string_length_app, Nat2Z.inj_add in Hlen.
  unfold shl. change (2 ^ 53) with 9007199254740992.
  change (2 ^ 31) with 2147483648 in *. change (2 ^ 21) with 2097152 in *.
  lia.
Qed.

Lemma hash_loop_exact_witness :
  let hash := hash_loop 0 "Al" in
  Z.abs hash < 2 ^ 53 ∧ Z.abs (shl hash 5) < 2 ^ 53 ∧
  Z.abs (shl hash 5 - hash) < 2 ^ 53.
Proof.
  apply (hash_loop_exact "Alice" "Al" "ice").
  - vm_compute. discriminate.
  - reflexivity.
Defined.

(** X13. [generateColor] gives every name, the empty one too, one of the
    eight gradients: the index [Math.abs(hash) % colors.length] never
    falls outside the array. *)
Theorem generateColor_defined (name : string) :
  ∃ color, generateColor name = Some color ∧ color ∈ colors.
Proof.
  unfold generateColor.
  set (i := Z.to_nat _).
  assert (Hi : (i < List.length colors)%nat).
  { subst i. simpl.
    pose proof (Z.rem_bound_pos (Z.abs (hash_loop 0 name)) 8). lia. }
  destruct (lookup_lt_is_Some_2 colors i Hi) as [color Hcolor].
  exists color. split; [done |]. by eapply list_elem_of_lookup_2.
Qed.

Section Split.
Implicit Types (sep a : ascii) (s w : string).

Lemma split_on_nonempty sep s : split_on sep s ≠ [].
Proof.
  destruct s as [| a rest]; simpl; [done |].
  destruct (Ascii.eqb a sep); [done |]. by destruct (split_on sep rest).
Qed.

Lemma split_on_length sep s :
  List.length (split_on sep s) = S (count_char sep s).
Proof.
  induction s as [| a rest IH]; [done |]. simpl.
  destruct (Ascii.eqb a sep); simpl; [by rewrite IH |].
  pose proof (split_on_nonempty sep rest).
  destruct (split_on sep rest); [done |]. simpl in *. done.
Qed.

(** Joining the parts with the separator gives the string back. *)
Lemma split_on_join sep s :
  String.concat (String sep EmptyString) (split_on sep s) = s.
Proof.
  induction s as [| a rest IH]; [done |]. simpl.
  pose proof (split_on_nonempty sep rest) as Hne.
  destruct (Ascii.eqb_spec a sep) as [-> | Hneq].
  - destruct (split_on sep rest) as [| p ps] eqn:Hsp; [done |].
    simpl in *. by rewrite IH.
  - destruct (split_on sep rest) as [| p ps] eqn:Hsp; [done |].
    simpl in *. destruct ps; simpl in *; by rewrite <- IH.
Qed.

Lemma split_on_no_sep sep s : count_char sep s = 0%nat → split_on sep s = [s].
Proof.
  induction s as [| a rest IH]; [done |]. simpl.
  destruct (Ascii.eqb a sep); [done |]. simpl. intros H. by rewrite IH.
Qed.

Lemma split_on_word sep w s :
  count_char sep w = 0%nat →
  split_on sep (w ++ String sep s)%string = w :: split_on sep s.
Proof.
  induction w as [| a rest IH]; simpl.
  - intros _. by rewrite Ascii.eqb_refl.
  - destruct (Ascii.eqb a sep); [done |]. simpl. intros H. by rewrite IH.
Qed.

Lemma trimEnd_head a s :
  isWhiteSpace a = false → ∃ s', trimEnd (String a s) = String a s'.
Proof. intros Ha. simpl. rewrite Ha. destruct (trimEnd s); eauto. Qed.

Lemma trimEnd_head_inv a s s' : trimEnd s = String a s' → ∃ r, s = String a r.
Proof.
  destruct s as [| b r]; [done |]. simpl.
  destruct (trimEnd r); [destruct (isWhiteSpace b) |]; intros [= -> _]; eauto.
Qed.

Lemma trimStart_starts s a r : trimStart s = String a r → isWhiteSpace a = false.
Proof.
  induction s as [| b rest IH]; [done |]. simpl.
  destruct (isWhiteSpace b) eqn:Hb; [done |]. by intros [= <- _].
Qed.

(** A trimmed string does not start with white space. *)
Lemma trim_starts s a r : trim s = String a r → isWhiteSpace a = false.
Proof.
  unfold trim. intros H. apply trimEnd_head_inv in H as [r' H].
  by apply trimStart_starts in H.
Qed.
End Split.

(** X14. [getInitials] throws for no name: when the trimmed name has two
    parts or more, the first part is not empty, so the sum the result is
    made from is a string and never [NaN]. *)
Theorem getInitials_never_throws (toUpperCase : string → string) (name : string) :
  is_Some (getInitials toUpperCase name).
Proof.
  unfold getInitials.
  destruct (2 <=? List.length (split_on " " (trim name)))%nat eqn:Hlen; [| eauto].
  destruct (split_on " " (trim name)) as [| p0 [| p1 ps]] eqn:Hsp; try done.
  assert (Hp0 : ∃ a r, p0 = String a r).
  { destruct (trim name) as [| a r] eqn:Ht; [done |].
    pose proof (trim_starts name a r Ht) as Hws. simpl in Hsp.
    destruct (Ascii.eqb_spec a " ") as [-> | Hne]; [done |].
    destruct (split_on " " r); injection Hsp as <- _; eauto. }
  destruct Hp0 as (a & r & ->). simpl. destruct p1; simpl; eauto.
Qed.

(** X15. When the first word of the trimmed name is followed by two
    spaces, [getInitials] takes the first character of an empty part:
    the result is the upper case of the first letter followed by the
    text [undefined]. *)
Theorem getInitials_double_space
  (toUpperCase : string → string) (name : string) (a : ascii) (w rest : string) :
  trim name = (String a w ++ "  " ++ rest)%string →
  count_char " " (String a w) = 0%nat →
  getInitials toUpperCase name
  = Some (toUpperCase (String a "undefined")).
Proof.
  intros Ht Hw. unfold getInitials. rewrite Ht.
  change ("  " ++ rest)%string with (String " " (String " " rest)).
  rewrite (split_on_word " " (String a w)) by done. simpl. done.
Qed.

Lemma getInitials_double_space_witness :
  getInitials id "Ada  Lovelace" = Some (id "Aundefined").
Proof.
  apply (getInitials_double_space id "Ada  Lovelace" "A" "da" "Lovelace");
    reflexivity.
Defined.

(** X16. When the trimmed name holds no space, [getInitials] is the
    upper case of the first two characters of the name as it was given,
    white space at its start included. *)
Theorem getInitials_single_word (toUpperCase : string → string) (name : string) :
  count_char " " (trim name) = 0%nat →
  getInitials toUpperCase name = Some (toUpperCase (substring0 2 name)).
Proof.
  intros H. unfold getInitials. by rewrite split_on_no_sep.
Qed.

Lemma getInitials_single_word_witness :
  getInitials id " Bob" = Some (id " B").
Proof. apply (getInitials_single_word id " Bob"). reflexivity. Defined.

(** X17. When the trimmed name starts with two words that one space
    separates, [getInitials] is the upper case of their two first
    characters, whatever follows. *)
Theorem getInitials_two_words
  (toUpperCase : string → string) (name : string) (a b : ascii) (w rest : string) :
  trim name = (String a w ++ " " ++ String b rest)%string →
  count_char " " (String a w) = 0%nat → b ≠ " "%char →
  getInitials toUpperCase name
  = Some (toUpperCase (String a (String b EmptyString))).
Proof.
  intros Ht Hw Hb. unfold getInitials. rewrite Ht.
  change (" " ++ String b rest)%string with (String " " (String b rest)).
  rewrite (split_on_word " " (String a w)) by done.
  cbn [split_on]. destruct (Ascii.eqb_spec b " ") as [-> | _]; [done |].
  pose proof (split_on_nonempty " " rest).
  destruct (split_on " " rest); [done |]. done.
Qed.

Lemma getInitials_two_words_witness :
  getInitials id "  Grace Brewster Hopper " = Some (id "GB").
Proof.
  apply (getInitials_two_words id "  Grace Brewster Hopper " "G" "B" "race"
           "rewster Hopper"); [reflexivity | reflexivity | discriminate].
Defined.

(** X18. The toolbar counts one line more than the code has line feeds,
    so an empty buffer has one line; the lines are never more than the
    characters plus one. *)
Theorem stats_lines_and_chars (code : string) :
  stats code = (S (count_char "010" code), String.length code) ∧
  ((stats code).1 ≤ S (stats code).2)%nat.
Proof.
  unfold stats. rewrite split_on_length. split; [done |]. simpl.
  apply le_n_S. induction code as [| a rest IH]; simpl; [done |].
  destruct (Ascii.eqb a "010"); simpl; lia.
Qed.

(** X19. Every language of the selector has an extension of its own in
    the table of [downloadCode]: the file is named [code.] and that
    extension, never [code.txt], and two languages never share a name.
    Any other language that is no inherited key gets [code.txt]. *)
Theorem download_name_by_language :
  Forall (λ l, ∃ ext, own_property l extensions = Some ext ∧
                      download_name l = Some ("code." ++ ext)%string ∧
                      ext ≠ "txt")
         selector_options ∧
  (∀ l1 l2, l1 ∈ selector_options → l2 ∈ selector_options →
            download_name l1 = download_name l2 → l1 = l2) ∧
  (∀ l, own_property l extensions = None → l ∉ inherited_keys →
        download_name l = Some "code.txt").
Proof.
  split_and!.
  - repeat first [apply List.Forall_nil | apply List.Forall_cons];
      eexists; (split_and!; [reflexivity | reflexivity | discriminate]).
  - intros l1 l2 H1 H2.
    repeat (apply elem_of_cons in H1 as [-> | H1]);
      try (by apply not_elem_of_nil in H1);
      repeat (apply elem_of_cons in H2 as [-> | H2]);
      try (by apply not_elem_of_nil in H2);
      vm_compute; congruence.
  - intros l Hown Hin. unfold download_name. rewrite Hown.
    by rewrite bool_decide_eq_false_2.
Qed.

(** ** The client and the server together *)

(** X20. The guard of the client's [joinRoom] is weaker than the
    server's.  When both fields are non-empty the client sends [join] and
    shows the editor.  If both are non-blank the server puts the socket
    in the room under exactly these strings; if one is only white space
    the server changes nothing and answers [error], for which the client
    has no listener: it stays on the editor screen, in no room. *)
Theorem client_join_guard_is_weaker
  (s : server) (c : connid) (k : socket) (st : Client.state) (t : Z) :
  reachable s → sockets s !! c = Some k → connected k = true →
  Client.roomId st ≠ "" → Client.userName st ≠ "" →
  let '(st', out) := Client.joinRoom st in
  let '(s', log) := deliver s t c (sent out) in
  Client.joined st' = true ∧
  (trim (Client.roomId st) ≠ "" → trim (Client.userName st) ≠ "" →
     ∃ k', sockets s' !! c = Some k' ∧
           currentRoom k' = Some (Client.roomId st) ∧
           userName k' = Some (Client.userName st) ∧
           Client.userName st ∈ participants s' (Client.roomId st)) ∧
  (trim (Client.roomId st) = "" ∨ trim (Client.userName st) = "" →
     s' = s ∧
     ∃ m, log = [(c, Emit {[c]} (Error m))] ∧
          Client.receive st' t (Error m) = (st', [])).
Proof.
  intros Hs Hk Hc Hr Hu. unfold Client.joinRoom.
  rewrite !eqb_empty_false by done. cbn [negb andb].
  unfold deliver. cbn [sent map run from].
  rewrite (step_open s t c k) by done.
  set (payload := join_payload (Client.roomId st) (Client.userName st)).
  destruct (join_error payload) as [m |] eqn:He.
  - unfold on_join. rewrite He. cbn. split_and!; [done | | eauto].
    intros Hr' Hu'. exfalso.
    assert (join_error payload = None); [| congruence].
    apply join_error_None. by exists (Client.roomId st), (Client.userName st).
  - apply join_error_None in He as (r & u & [= <-] & [= <-] & Hr' & Hu').
    pose proof (on_join_valid_state s c k payload
                  (Client.roomId st) (Client.userName st)
                  (reachable_inv s Hs) Hk eq_refl eq_refl Hr' Hu') as Hj.
    destruct (on_join s c k payload) as [s' out]. destruct Hj as (Hk' & _ & Hp & _).
    cbn. split_and!; [done | | by intros [? | ?]].
    intros _ _. eexists. split; [apply Hk' |]. split_and!; try done.
    apply Hp. by left.
Qed.

Lemma client_join_guard_is_weaker_witness :
  let s := (run init [Arrival 0 "X" Connect]).1 in
  let st := Client.State false "ABC123" "   " "javascript"
              (JStr "// Start coding together!") [] (JStr "") [] in
  let '(st', out) := Client.joinRoom st in
  let '(s', log) := deliver s 1 "X" (sent out) in
  Client.joined st' = true ∧ s' = s ∧
  ∃ m, log = [("X", Emit {["X"]} (Error m))].
Proof.
  intros s st.
  pose proof (client_join_guard_is_weaker s "X" (new_socket "X") st 1) as H.
  destruct (Client.joinRoom st) as [st' out].
  destruct (deliver s 1 "X" (sent out)) as [s' log].
  destruct H as (Hj & _ & Hbad).
  - apply reachable_run, reachable_init.
  - vm_compute. reflexivity.
  - reflexivity.
  - discriminate.
  - discriminate.
  - split; [done |]. destruct Hbad as (-> & m & -> & _); [by right |]. eauto.
Defined.



Section TypingIndicator.
Implicit Types (st : Client.state).

Lemma receive_typing_keeps_clears st t u d :
  d ∈ Client.typing_clears st →
  d ∈ Client.typing_clears (Client.receive st t (UserTyping u)).1.
Proof. simpl. set_solver. Qed.

Lemma notices_keep_clears (later : list (Z * jsval)) st d :
  d ∈ Client.typing_clears st →
  d ∈ Client.typing_clears
        (fold_left (λ acc n, (Client.receive acc n.1 (UserTyping n.2)).1) later st).
Proof.
  revert st. induction later as [| n later IH]; intros st Hd; [done |].
  simpl. apply IH. simpl. set_solver.
Qed.
End TypingIndicator.

(** X22. The timer a [userTyping] starts is never cancelled: 2000 ms
    after a notice the typing indicator is emptied, whatever notices
    came in the meantime, so a notice that follows another within two
    seconds is shown for less than two seconds. *)
Theorem typing_indicator_cleared_by_first_timer
  (st : Client.state) (t0 : Z) (u0 : jsval) (later : list (Z * jsval)) (now : Z) :
  t0 + 2000 ≤ now →
  let st1 := (Client.receive st t0 (UserTyping u0)).1 in
  let st2 := fold_left (λ acc n, (Client.receive acc n.1 (UserTyping n.2)).1)
               later st1 in
  Client.typing (Client.timers st2 now) = JStr "" ∧
  (∀ n, n ∈ later → now < n.1 + 2000 →
        n.1 + 2000 ∈ Client.typing_clears (Client.timers st2 now)).
Proof.
  intros Hnow st1 st2.
  assert (Hin : t0 + 2000 ∈ Client.typing_clears st2).
  { apply notices_keep_clears. subst st1. simpl. set_solver. }
  unfold Client.timers. rewrite bool_decide_eq_true_2.
  2: { apply Exists_exists. exists (t0 + 2000). split; [done | lia]. }
  split; [done |]. intros n Hn Hlt. simpl. apply list_elem_of_filter.
  split; [lia |]. subst st2. clear Hin. revert Hn. generalize st1.
  induction later as [| m later IH]; intros st' Hn; [by apply not_elem_of_nil in Hn |].
  simpl. apply elem_of_cons in Hn as [-> | Hn]; [| by apply IH].
  apply notices_keep_clears. simpl. set_solver.
Qed.

Lemma typing_indicator_cleared_by_first_timer_witness :
  let st1 := (Client.receive Client.initial 0 (UserTyping (JStr "Alice"))).1 in
  let st2 := fold_left (λ acc n, (Client.receive acc n.1 (UserTyping n.2)).1)
               [(1900, JStr "Bob")] st1 in
  Client.typing st2 = JStr "Bob" ∧
  Client.typing (Client.timers st2 2000) = JStr "".
Proof.
  split; [reflexivity |].
  apply (typing_indicator_cleared_by_first_timer Client.initial 0 (JStr "Alice")
           [(1900, JStr "Bob")] 2000). lia.
Defined.

(** X23. Leaving from the client.  [leaveRoom] sends the message and
    empties the two fields, so the client is on the join screen and a
    [joinRoom] without new input sends nothing.  The server's roster
    broadcast for the room that was left reaches the leaving socket, and
    the client, which keeps its listeners, stores that roster as its
    list of users. *)
Theorem client_leave_keeps_old_roster
  (s : server) (c : connid) (k : socket) (st : Client.state)
  (A n : string) (t : Z) :
  reachable s → sockets s !! c = Some k → connected k = true →
  currentRoom k = Some A → userName k = Some n → A ∈ dom (rooms s) →
  let roster := set_delete (Some n) (participants s A) in
  let '(st1, out) := Client.leaveRoom st in
  let '(s', log) := deliver s t c (sent out) in
  Client.joined st1 = false ∧ sent (Client.joinRoom st1).2 = [] ∧
  ∃ tg, log = [(c, Emit tg (UserJoined roster))] ∧ c ∈ tg ∧
        let st2 := (Client.receive st1 t (UserJoined roster)).1 in
        Client.users st2 = roster ∧ Client.joined st2 = false.
Proof.
  intros Hs Hk Hc HA Hn Hdom roster. unfold Client.leaveRoom, deliver.
  cbn [sent map run from].
  pose proof (on_leaveRoom_effects s c k
                (inv_sockets s (reachable_inv s Hs) c k Hk)) as He.
  rewrite (step_open s t c k) by done.
  destruct (on_leaveRoom s c k) as [s' out]. cbn [fst snd] in *.
  rewrite He, HA, Hn. unfold leave_effects. rewrite decide_True by done.
  split_and!; [done | done |].
  exists (subscribers s A). split_and!; try done.
  by apply (in_room_subscribers s c k A).
Qed.

Lemma client_leave_keeps_old_roster_witness :
  let s := (run init [Arrival 0 "X" Connect; Arrival 0 "Y" Connect;
                      Arrival 1 "X" (Join (join_payload "ABC123" "Alice"));
                      Arrival 2 "Y" (Join (join_payload "ABC123" "Bob"))]).1 in
  let st := Client.State true "ABC123" "Bob" "python" (JStr "print(1)")
              ["Alice"; "Bob"] (JStr "") [] in
  let roster := set_delete (Some "Bob") (participants s "ABC123") in
  let '(st1, out) := Client.leaveRoom st in
  let '(s', log) := deliver s 3 "Y" (sent out) in
  Client.joined st1 = false ∧ sent (Client.joinRoom st1).2 = [] ∧
  ∃ tg, log = [("Y", Emit tg (UserJoined roster))] ∧ "Y" ∈ tg ∧
        let st2 := (Client.receive st1 3 (UserJoined roster)).1 in
        Client.users st2 = roster ∧ Client.joined st2 = false.
Proof.
  intros s st.
  apply (client_leave_keeps_old_roster s "Y"
           (Socket true {["Y"; "ABC123"]} (Some "ABC123") (Some "Bob") None None)
           st "ABC123" "Bob" 3).
  - apply reachable_run, reachable_init.
  - vm_compute. reflexivity.
  - reflexivity.
  - reflexivity.
  - reflexivity.
  - apply elem_of_dom. vm_compute. eauto.
Defined.
